(** * PythonConcurrency: the two fan-out demonstration servers

    A shallow embedding of

    - [src/bruno_concurrent_http_server/server.py], the thread-per-unit
      server ([parse_path], [process_req], [perform_request],
      [launch_request_thread], [get_elapsed], [MyServer.do_GET]), and
    - [src/server.py], the asyncio server ([get], [main], [get_delays]),

    together with the properties of the fan-out / fan-in pattern that the
    specification states about them.

    Time is a logical clock.  The only thing that takes time is an
    upstream call; a unit of work (a thread, a task) that was started at
    the instant [t] and whose call takes [d] ticks ends at [t + d],
    whatever the other units do, and its effects take place at that
    instant.  The clock of a caller moves when the caller waits: in
    [thread.join()] and in [await asyncio.gather(...)].

    Two units that end at the same instant of this clock are taken in
    the order in which they were started, and a unit that ends at the
    very instant at which the failure of another resumes the awaiting
    coroutine is taken to have ended.  The real event loop orders such
    completions by arrival, and may find the second unit still pending
    and cancel it.  The properties below that tell the units ended from
    the units cancelled or pending after a failure are stated for units
    that end strictly before, or strictly after, that instant. *)

From Stdlib Require Import Ascii String.
From stdpp Require Import base option list sorting.
From Stdlib Require Import Lia.

Local Open Scope string_scope.

(** ** Python values the servers use *)

(** The exceptions the modelled statements can raise. *)
Inductive Exn : Type :=
| IndexError            (* [parts[-1]] on an empty list *)
| AttributeError        (* [req.args.split] when [args] is a list *)
| ConnectionError       (* [requests.get] / [session.get]: refused, DNS, reset *)
| JSONDecodeError.      (* [json.loads] on a body that is not JSON *)

(** The outcome of evaluating a Python expression: a value or a raised
    exception. *)
Inductive Result (A : Type) : Type :=
| Ok (a : A)
| Raise (e : Exn).
Arguments Ok {A} a.
Arguments Raise {A} e.

Definition error_of {A} (r : Result A) : option Exn :=
  match r with Ok _ => None | Raise e => Some e end.

Definition value_of {A} (r : Result A) : option A :=
  match r with Ok a => Some a | Raise _ => None end.

Module Str.

(** [s.split(sep)] for a separator of one character, which is what both
    call sites pass ("/" and ","): the segments between the occurrences
    of [sep], from left to right; never the empty list. *)
Fixpoint split (sep : ascii) (s : string) : list string :=
  match s with
  | EmptyString => [EmptyString]
  | String c s' =>
      if Ascii.eqb c sep then EmptyString :: split sep s'
      else match split sep s' with
           | [] => [String c EmptyString]
           | seg :: segs => String c seg :: segs
           end
  end.

(** [s.startswith(p)]. *)
Fixpoint startswith (p s : string) : bool :=
  match p, s with
  | EmptyString, _ => true
  | String a p', String b s' => Ascii.eqb a b && startswith p' s'
  | String _ _, EmptyString => false
  end.

(** [needle in hay] on two strings. *)
Fixpoint contains (needle hay : string) : bool :=
  startswith needle hay ||
  match hay with
  | EmptyString => false
  | String _ hay' => contains needle hay'
  end.

(** [sep.join(l)] for such a separator. *)
Fixpoint join (sep : ascii) (l : list string) : string :=
  match l with
  | [] => EmptyString
  | [seg] => seg
  | seg :: l' => seg ++ String sep (join sep l')
  end.

(** [s.count(sep)] for such a separator. *)
Fixpoint count (sep : ascii) (s : string) : nat :=
  match s with
  | EmptyString => 0
  | String c s' => (if Ascii.eqb c sep then 1 else 0) + count sep s'
  end.

(** [l[-1]]: the last element, [IndexError] on the empty list. *)
Definition index_last {A} (l : list A) : Result A :=
  match last l with
  | Some x => Ok x
  | None => Raise IndexError
  end.

(** [needle] occurs in [hay] as a substring. *)
Definition occurs (needle hay : string) : Prop :=
  exists pre post, hay = pre ++ needle ++ post.

(** [a] is the part of [p] after the final occurrence of the character
    [sep]. *)
Definition after_final (sep : ascii) (p a : string) : Prop :=
  (exists pre, p = pre ++ String sep a) /\ ~ occurs (String sep "") a.

End Str.

(** ** The upstream service and the libraries that reach it *)

(** What [requests.get] hands back: the server only reads [.text]. *)
Record Response : Type := mkResponse { text : string }.

(** One upstream call as the caller sees it: how long it takes, in clock
    ticks, and whether the transport produced a response or raised.  A
    call that never ends is outside the model. *)
Record Reply : Type := mkReply {
  latency : nat;
  answer : Result Response
}.

(** The collaborators outside the repository: the upstream HTTP service
    behind [requests] / [aiohttp] and the [json] decoder.  [upstream n url]
    is the reply to the request that unit of work number [n] sends to
    [url]; nothing is assumed about it, so every pattern of delays,
    refusals and undecodable bodies, and with it every completion order,
    is covered. *)
Class Network : Type := {
  Json : Type;
  json_loads : string -> Result Json;
  upstream : nat -> string -> Reply
}.

(** ** The threaded server *)

Module Threaded.

(** *** Request paths *)

(** The [args] attribute of a [RequestPath] holds either the list it
    defaults to or the string [parse_path] stores. *)
Inductive PyArgs : Type :=
| ArgList (items : list string)
| ArgStr (s : string).

(** [class RequestPath], built by [__init__(self, path, args=[])]. *)
Record RequestPath : Type := mkRequestPath {
  path : string;
  args : PyArgs
}.

(** The value of the default [args=[]]; no statement of the program adds
    an element to it. *)
Definition RequestPath_default_args : PyArgs := ArgList [].

Definition slash : ascii := "/"%char.
Definition comma : ascii := ","%char.

(** [parse_path(path)]. *)
Definition parse_path (p : string) : Result RequestPath :=
  let parts := Str.split slash p in
  if Str.contains "/secs/" p then
    match Str.index_last parts with
    | Ok a => Ok (mkRequestPath "/secs/" (ArgStr a))
    | Raise e => Raise e
    end
  else Ok (mkRequestPath p RequestPath_default_args).

(** *** The shared lists, the threads and the clock *)

(** The three list objects that the [results=[]] defaults create when the
    module is loaded; each lives as long as the process. *)
Inductive Ref : Type :=
| process_req_default
| perform_request_default
| launch_request_thread_default.

#[global] Instance Ref_eq_dec : EqDecision Ref.
Proof. solve_decision. Defined.

Section WithNetwork.
Context `{Network}.

Record Heap : Type := mkHeap {
  cell_process_req : list Json;
  cell_perform_request : list Json;
  cell_launch_request_thread : list Json
}.

Definition deref (r : Ref) (h : Heap) : list Json :=
  match r with
  | process_req_default => cell_process_req h
  | perform_request_default => cell_perform_request h
  | launch_request_thread_default => cell_launch_request_thread h
  end.

Definition assign (r : Ref) (l : list Json) (h : Heap) : Heap :=
  match r with
  | process_req_default =>
      mkHeap l (cell_perform_request h) (cell_launch_request_thread h)
  | perform_request_default =>
      mkHeap (cell_process_req h) l (cell_launch_request_thread h)
  | launch_request_thread_default =>
      mkHeap (cell_process_req h) (cell_perform_request h) l
  end.

Inductive ThreadState : Type :=
| Running
| Finished               (* the target returned *)
| Died (e : Exn).        (* the target raised; nobody catches it *)

(** A [threading.Thread(target=perform_request, args=(url, results))]
    that has been started. *)
Record Thread : Type := mkThread {
  ident : nat;
  th_url : string;
  th_results : Ref;
  th_started : nat;
  th_state : ThreadState
}.

Record World : Type := mkWorld {
  clock : nat;
  heap : Heap;
  threads : list Thread
}.

Definition empty_heap : Heap := mkHeap [] [] [].

(** The process right after the module has been loaded. *)
Definition boot : World := mkWorld 0 empty_heap [].

(** Statements run against the world and return a value or raise. *)
Definition Stmt (A : Type) : Type := World -> Result A * World.

Definition ret {A} (a : A) : Stmt A := fun w => (Ok a, w).

Definition bind {A B} (m : Stmt A) (k : A -> Stmt B) : Stmt B :=
  fun w =>
    match m w with
    | (Ok a, w') => k a w'
    | (Raise e, w') => (Raise e, w')
    end.

Definition lift {A} (r : Result A) : Stmt A := fun w => (r, w).

Notation "x <- m ;; k" := (bind m (fun x => k))
  (at level 100, m at next level, right associativity).

(** A list comprehension [[f(x) for x in l]]: left to right, stopping
    at the first exception. *)
Fixpoint comprehension {A B} (f : A -> Stmt B) (l : list A) : Stmt (list B) :=
  match l with
  | [] => ret []
  | x :: l' => y <- f x ;; ys <- comprehension f l' ;; ret (y :: ys)
  end.

(** A statement loop [for x in l: f(x)]. *)
Fixpoint for_each {A} (f : A -> Stmt unit) (l : list A) : Stmt unit :=
  match l with
  | [] => ret tt
  | x :: l' => _ <- f x ;; for_each f l'
  end.

(** *** Library calls *)

(** [datetime.now()]. *)
Definition datetime_now : Stmt nat := fun w => (Ok (clock w), w).

(** [results.append(v)] on the list object [r]. *)
Definition list_append (r : Ref) (v : Json) : Stmt unit :=
  fun w =>
    (Ok tt,
     mkWorld (clock w) (assign r (deref r (heap w) ++ [v]) (heap w))
             (threads w)).

(** [requests.get(url)] as called by unit of work number [me]: the
    response, or the transport's exception.  The time it takes is
    accounted for where the thread is waited for, see [finish_time]. *)
Definition requests_get (me : nat) (url : string) : Stmt Response :=
  lift (answer (upstream me url)).

(** [req.args.split(",")]: lists have no [split]. *)
Definition args_split (a : PyArgs) : Result (list string) :=
  match a with
  | ArgStr s => Ok (Str.split comma s)
  | ArgList _ => Raise AttributeError
  end.

(** [threading.Thread(target=perform_request, args=(url, results))]
    followed by [.start()]: the thread is entered in the table as
    running, stamped with the instant it was started. *)
Definition Thread_start (url : string) (results : Ref) : Stmt nat :=
  fun w =>
    let tid := length (threads w) in
    (Ok tid,
     mkWorld (clock w) (heap w)
             (threads w ++ [mkThread tid url results (clock w) Running])).

(** *** The functions of the server *)

(** [perform_request(url, results=[])], run by the thread [me]. *)
Definition perform_request (me : nat) (url : string)
    (results : option Ref) : Stmt Response :=
  let results := default perform_request_default results in
  res <- requests_get me url ;;
  v <- lift (json_loads (text res)) ;;
  _ <- list_append results v ;;
  ret res.

(** [launch_request_thread(url, results=[])]. *)
Definition launch_request_thread (url : string)
    (results : option Ref) : Stmt nat :=
  let results := default launch_request_thread_default results in
  thread <- Thread_start url results ;;
  ret thread.

(** [process_req(req, results=[])]. *)
Definition process_req (req : RequestPath) (results : option Ref)
    : Stmt (list nat) :=
  let results := default process_req_default results in
  secs_list <- lift (args_split (args req)) ;;
  comprehension
    (fun secs =>
       launch_request_thread ("http://httpbin.org/delay/" ++ secs)
                             (Some results))
    secs_list.

(** [get_elapsed(t0)]. *)
Definition get_elapsed (t0 : nat) : Stmt nat :=
  now <- datetime_now ;; ret (now - t0).

(** *** The thread runtime *)

(** The instant a thread's target comes to its end: the upstream call
    is the only statement of [perform_request] that takes time. *)
Definition finish_time (th : Thread) : nat :=
  th_started th + latency (upstream (ident th) (th_url th)).

Definition is_running (th : Thread) : bool :=
  match th_state th with Running => true | _ => false end.

Definition exit_state {A} (r : Result A) : ThreadState :=
  match r with Ok _ => Finished | Raise e => Died e end.

Definition thread_with_state (s : ThreadState) (th : Thread) : Thread :=
  mkThread (ident th) (th_url th) (th_results th) (th_started th) s.

(** Thread [i] runs its target to the end: the effects of
    [perform_request] take place and the thread leaves [Running]. *)
Definition complete (i : nat) (w : World) : World :=
  match threads w !! i with
  | Some th =>
      if is_running th then
        let '(r, w') :=
          perform_request (ident th) (th_url th) (Some (th_results th)) w
        in mkWorld (clock w') (heap w')
                   (alter (thread_with_state (exit_state r)) i (threads w'))
      else w
  | None => w
  end.

Definition is_due (t : nat) (w : World) (i : nat) : bool :=
  match threads w !! i with
  | Some th => is_running th && (finish_time th <=? t)%nat
  | None => false
  end.

(** The running threads that come to their end by the instant [t]. *)
Definition due (t : nat) (w : World) : list nat :=
  List.filter (is_due t w) (seq 0 (length (threads w))).

Definition finish_of (w : World) (i : nat) : nat :=
  from_option finish_time 0 (threads w !! i).

Fixpoint insert_by (key : nat -> nat) (i : nat) (l : list nat)
    : list nat :=
  match l with
  | [] => [i]
  | j :: l' =>
      if (key i <=? key j)%nat then i :: j :: l' else j :: insert_by key i l'
  end.

(** The due threads in the order in which they end; of threads that end
    together, the one started first comes first. *)
Definition schedule (t : nat) (w : World) : list nat :=
  foldr (insert_by (finish_of w)) [] (due t w).

(** Time passes until the instant [t]: every thread that ends by then
    completes, earliest first. *)
Definition advance (t : nat) (w : World) : World :=
  let w' := foldl (fun w i => complete i w) w (schedule t w) in
  mkWorld (Nat.max (clock w') t) (heap w') (threads w').

(** [thread.join()]: returns at once when the thread has ended, and
    otherwise blocks the caller until the instant it ends. *)
Definition Thread_join (tid : nat) : Stmt unit :=
  fun w =>
    match threads w !! tid with
    | Some th =>
        if is_running th then (Ok tt, advance (finish_time th) w)
        else (Ok tt, w)
    | None => (Ok tt, w)
    end.

(** [MyServer.do_GET] for the request line path [self_path]; the
    value is the elapsed time that the handler writes into the
    response body. *)
Definition do_GET (self_path : string) : Stmt nat :=
  req <- lift (parse_path self_path) ;;
  t0 <- datetime_now ;;
  _ <- (if String.eqb (path req) "/secs/" then
          reqs <- process_req req None ;;
          for_each Thread_join reqs
        else ret tt) ;;
  get_elapsed t0.

(** *** Vocabulary for the properties *)

(** The Outcome of unit of work number [me] fetching [url]: the decoded
    payload that [perform_request] appends, or the exception that ends
    it. *)
Definition outcome (me : nat) (url : string) : Result Json :=
  match answer (upstream me url) with
  | Ok res => json_loads (text res)
  | Raise e => Raise e
  end.

Definition thread_outcome (th : Thread) : Result Json :=
  outcome (ident th) (th_url th).

(** The Targets of the batch that a request with the argument string [a]
    submits: one URL for each segment of [a]. *)
Definition delay_urls (a : string) : list string :=
  (fun secs => "http://httpbin.org/delay/" ++ secs) <$> Str.split comma a.

(** The Targets, each with the number of the unit of work that fetches it
    when the batch is submitted in the world [w]. *)
Definition units (w : World) (a : string) : list (nat * string) :=
  imap (fun k url => (length (threads w) + k, url)) (delay_urls a).

(** The threads of that batch, as they are started. *)
Definition launched (w : World) (a : string) : list Thread :=
  (fun u => mkThread u.1 u.2 process_req_default (clock w) Running)
    <$> units w a.

(** The world right after the batch has been started. *)
Definition launch (w : World) (a : string) : World :=
  mkWorld (clock w) (heap w) (threads w ++ launched w a).

(** The delays of the Targets of that batch. *)
Definition delays (w : World) (a : string) : list nat :=
  (fun u => latency (upstream u.1 u.2)) <$> units w a.

(** The payloads of the Targets of that batch that succeed. *)
Definition payloads (w : World) (a : string) : list Json :=
  omap (fun u => value_of (outcome u.1 u.2)) (units w a).

(** A thread once its target has come to its end. *)
Definition settled (th : Thread) : Thread :=
  if is_running th
  then thread_with_state (exit_state (thread_outcome th)) th
  else th.

(** A thread at the instant [t]. *)
Definition settle_by (t : nat) (th : Thread) : Thread :=
  if is_running th && (finish_time th <=? t)%nat then settled th else th.

(** A thread is as it was, or has ended since. *)
Definition evolves (th th' : Thread) : Prop :=
  th' = th \/ th' = settled th.

(** A thread that has ended did so by the instant [c]. *)
Definition ended_by (c : nat) (th : Thread) : Prop :=
  is_running th = false -> finish_time th <= c.

(** The heap after a unit with the Outcome [o] has run against the list
    object [r]. *)
Definition grow (r : Ref) (o : Result Json) (h : Heap) : Heap :=
  match o with
  | Ok v => assign r (deref r h ++ [v]) h
  | Raise _ => h
  end.

(** The world after the loop [for req in reqs: req.join()]. *)
Definition join_all (tids : list nat) (w : World) : World :=
  foldl (fun w tid => (Thread_join tid w).2) w tids.

(** The world when the handler has joined the threads of the batch that
    a request with the argument string [a] submits in the world [w]. *)
Definition batch_end (w : World) (a : string) : World :=
  join_all (seq (length (threads w)) (length (units w a))) (launch w a).

(** The world [w] with the clock at [c]. *)
Definition with_clock (c : nat) (w : World) : World :=
  mkWorld c (heap w) (threads w).

(** What thread [i] appends to the list object [r] when it completes in
    the world [w]. *)
Definition appends (r : Ref) (w : World) (i : nat) : option Json :=
  match threads w !! i with
  | Some th =>
      if is_running th && bool_decide (th_results th = r)
      then value_of (thread_outcome th) else None
  | None => None
  end.

(** The unit of work that thread [i] of the world [w] carries out. *)
Definition unit_of (w : World) (i : nat) : nat * string :=
  (i, from_option th_url EmptyString (threads w !! i)).

(** The unit [u] takes no longer than the unit [v]. *)
Definition no_slower (u v : nat * string) : Prop :=
  latency (upstream u.1 u.2) <= latency (upstream v.1 v.2).

(** The list object [r] holds in [w'] what it held in [w], followed by
    what has been appended since. *)
Definition grown (r : Ref) (w w' : World) : Prop :=
  exists l, deref r (heap w') = (deref r (heap w) ++ l)%list.

(** No unit of work is in flight. *)
Definition quiescent (w : World) : Prop :=
  Forall (fun th => is_running th = false) (threads w).

(** What the list object [r] holds together with what the running threads
    are going to append to it. *)
Definition pending (r : Ref) (ths : list Thread) : list Json :=
  omap (fun th =>
          if is_running th && bool_decide (th_results th = r)
          then value_of (thread_outcome th) else None) ths.

Definition holdings (r : Ref) (w : World) : list Json :=
  deref r (heap w) ++ pending r (threads w).

End WithNetwork.

End Threaded.

(** ** The asyncio server: tasks and the event loop *)

Module Async.

Inductive TaskState : Type :=
| Pending
| Done
| Failed (e : Exn)
| Cancelled.

(** A coroutine that the loop drives as a task: the instant it was
    scheduled, how long it runs and the exception it ends with, if
    any. *)
Record Task : Type := mkTask {
  t_started : nat;
  t_duration : nat;
  t_error : option Exn;
  t_state : TaskState
}.

(** The event loop: its clock, the tasks it has been given and the
    number of times the running coroutine handed control back to it. *)
Record Loop : Type := mkLoop {
  now : nat;
  tasks : list Task;
  suspensions : nat
}.

Definition idle : Loop := mkLoop 0 [] 0.

Definition Await (A : Type) : Type := Loop -> Result A * Loop.

Definition aret {A} (a : A) : Await A := fun w => (Ok a, w).

Definition abind {A B} (m : Await A) (k : A -> Await B) : Await B :=
  fun w =>
    match m w with
    | (Ok a, w') => k a w'
    | (Raise e, w') => (Raise e, w')
    end.

Notation "x <- m ;; k" := (abind m (fun x => k))
  (at level 100, m at next level, right associativity).

(** A coroutine object: driven as unit of work number [me], it runs for
    a time and then returns or raises. *)
Definition Coroutine (A : Type) : Type := nat -> nat * Result A.

Definition t_finish (t : Task) : nat := t_started t + t_duration t.

Definition is_pending (t : Task) : bool :=
  match t_state t with Pending => true | _ => false end.

Definition task_with_state (s : TaskState) (t : Task) : Task :=
  mkTask (t_started t) (t_duration t) (t_error t) s.

(** A pending task that ends by the instant [t] becomes done or
    failed.  A task that ends at [t] itself is counted as ended: see the
    convention on coinciding instants at the head of the file. *)
Definition settle (t : nat) (k : Task) : Task :=
  if is_pending k && (t_finish k <=? t)%nat then
    task_with_state (match t_error k with None => Done | Some e => Failed e end) k
  else k.

(** The loop runs until the instant [t]. *)
Definition run_until (t : nat) (w : Loop) : Loop :=
  mkLoop (Nat.max (now w) t) (settle t <$> tasks w) (suspensions w).

(** The earliest failure among the children of a [gather], as the pair
    of its running time and its exception; of two that end together the
    one given first. *)
Fixpoint first_failure {A} (runs : list (nat * Result A))
    : option (nat * Exn) :=
  match runs with
  | [] => None
  | (d, Ok _) :: rest => first_failure rest
  | (d, Raise e) :: rest =>
      match first_failure rest with
      | Some (d', e') => if (d' <? d)%nat then Some (d', e') else Some (d, e)
      | None => Some (d, e)
      end
  end.

(** What the children of a [gather] over [coros] do when it is awaited in
    the loop [w]: the running time and the result of each. *)
Definition gather_runs {A} (w : Loop) (coros : list (Coroutine A))
    : list (nat * Result A) :=
  imap (fun k co => co (length (tasks w) + k)) coros.

(** The loop at the instant the children have been made tasks and the
    awaiting coroutine is suspended. *)
Definition gather_start {A} (w : Loop) (coros : list (Coroutine A)) : Loop :=
  mkLoop (now w)
         (tasks w ++
          ((fun r : nat * Result A =>
              mkTask (now w) r.1 (error_of r.2) Pending)
             <$> gather_runs w coros))
         (S (suspensions w)).

(** [await asyncio.gather] over the coroutines [coros], with the default
    [return_exceptions=False].  Without children the outer future is
    born done and awaiting it does not suspend.  Otherwise every child
    becomes a task at once and the awaiting coroutine is suspended until
    all children are done, which yields their values in the order given,
    or until the first child raises, which raises that exception in the
    awaiting coroutine and leaves the other children running.  Of the
    other children, those that end strictly before the failure have ended
    and those that end strictly after it are pending; one that ends at
    the very instant of the failure is counted as ended here, where the
    real loop may as well find it pending. *)
Definition gather {A} (coros : list (Coroutine A)) : Await (list A) :=
  fun w =>
    match coros with
    | [] => (Ok [], w)
    | _ =>
        let runs := gather_runs w coros in
        match first_failure runs with
        | Some (d, e) => (Raise e, run_until (now w + d) (gather_start w coros))
        | None =>
            (Ok (omap (fun r => value_of r.2) runs),
             run_until (now w + max_list (fst <$> runs)) (gather_start w coros))
        end
    end.

(** What [asyncio.run] does when the main coroutine has ended: every
    task still pending is cancelled. *)
Definition cancel_pending (w : Loop) : Loop :=
  mkLoop (now w)
         ((fun k => if is_pending k then task_with_state Cancelled k else k)
            <$> tasks w)
         (suspensions w).

(** [asyncio.run(coro)]. *)
Definition asyncio_run {A} (coro : Await A) : Await A :=
  fun w => let '(r, w') := coro w in (r, cancel_pending w').

(** [time.time()]. *)
Definition time_time : Await nat := fun w => (Ok (now w), w).

Definition DELAY_URLS : list string :=
  ["http://httpbin.org/delay/5"; "http://httpbin.org/delay/3"].

Section WithNetwork.
Context `{Network}.

(** [get(url)]: the session and the request are opened, the body is
    read and dropped, and the coroutine returns [None]. *)
Definition get (url : string) : Coroutine unit :=
  fun me =>
    let reply := upstream me url in
    (latency reply,
     match answer reply with
     | Ok response => let _ := text response in Ok tt
     | Raise e => Raise e
     end).

(** [main(urls)]. *)
Definition main (urls : list string) : Await unit :=
  _ <- gather (get <$> urls) ;; aret tt.

(** The delays of the Targets [urls] when they are gathered in the loop
    [w]. *)
Definition latencies (w : Loop) (urls : list string) : list nat :=
  imap (fun k url => latency (upstream (length (tasks w) + k) url)) urls.

(** The transport answers every Target of the batch. *)
Definition all_answer (w : Loop) (urls : list string) : Prop :=
  forall k url, urls !! k = Some url ->
    error_of (answer (upstream (length (tasks w) + k) url)) = None.

(** [get_delays()]; the value is the delay that the view reports. *)
Definition get_delays : Await nat :=
  start <- time_time ;;
  _ <- asyncio_run (main DELAY_URLS) ;;
  end_ <- time_time ;;
  aret (end_ - start).

End WithNetwork.

End Async.

(** ** Concrete upstream services for the worked examples *)

Module Demo.

(** A decoder that accepts the texts that open a JSON object. *)
Definition loads (s : string) : Result string :=
  if Str.startswith "{" s then Ok s else Raise JSONDecodeError.

Fixpoint lookup_url (t : list (string * Reply)) (url : string) : Reply :=
  match t with
  | [] => mkReply 0 (Raise ConnectionError)
  | (u, r) :: t' => if String.eqb u url then r else lookup_url t' url
  end.

(** [/delay/n] answers a JSON object after [n] ticks; [/delay/] answers
    an HTML error page at once; the connection to [/delay/x] is refused
    after one tick. *)
Definition routes : list (string * Reply) :=
  [("http://httpbin.org/delay/1", mkReply 1 (Ok (mkResponse "{1}")));
   ("http://httpbin.org/delay/2", mkReply 2 (Ok (mkResponse "{2}")));
   ("http://httpbin.org/delay/3", mkReply 3 (Ok (mkResponse "{3}")));
   ("http://httpbin.org/delay/5", mkReply 5 (Ok (mkResponse "{5}")));
   ("http://httpbin.org/delay/", mkReply 0 (Ok (mkResponse "<html>")));
   ("http://httpbin.org/delay/x", mkReply 1 (Raise ConnectionError))].

Definition httpbin : Network :=
  {| Json := string;
     json_loads := loads;
     upstream := fun _ url => lookup_url routes url |}.

(** An upstream that refuses every connection after two ticks. *)
Definition outage : Network :=
  {| Json := string;
     json_loads := loads;
     upstream := fun _ _ => mkReply 2 (Raise ConnectionError) |}.

End Demo.

(** * Properties *)

(** ** Strings *)

Section StrFacts.

Import Str.

Lemma startswith_spec (p s : string) :
  startswith p s = true <-> exists post, s = p ++ post.
Proof.
  revert s; induction p as [|a p IH]; intros s; simpl.
  - split; [intros _; now exists s | reflexivity].
  - destruct s as [|b s].
    + split; [discriminate | intros [post Hp]; discriminate].
    + rewrite andb_true_iff, IH, Ascii.eqb_eq. split.
      * intros [-> [post ->]]. now exists post.
      * intros [post Hp]. injection Hp as -> ->. split; [reflexivity | now exists post].
Qed.

Lemma contains_spec (needle hay : string) :
  contains needle hay = true <-> occurs needle hay.
Proof.
  unfold occurs. split.
  - induction hay as [|c hay IH]; simpl; rewrite orb_true_iff.
    + intros [Hs | Hf]; [| discriminate].
      apply startswith_spec in Hs as [post ->]. now exists "", post.
    + intros [Hs | Hc].
      * apply startswith_spec in Hs as [post ->]. now exists "", post.
      * destruct (IH Hc) as (pre & post & ->). now exists (String c pre), post.
  - intros (pre & post & ->).
    induction pre as [|c pre IH]; simpl.
    + assert (Hs : startswith needle (needle ++ post) = true)
        by (apply startswith_spec; now exists post).
      destruct (needle ++ post); simpl; now rewrite Hs.
    + apply orb_true_iff; right. exact IH.
Qed.

Lemma contains_false (needle hay : string) :
  contains needle hay = false <-> ~ occurs needle hay.
Proof.
  rewrite <- contains_spec. destruct (contains needle hay); split; intros; congruence.
Qed.

(** An occurrence of a single character, read off the first character. *)
Lemma occurs_char_cons (sep c : ascii) (s : string) :
  occurs (String sep "") (String c s) <-> c = sep \/ occurs (String sep "") s.
Proof.
  unfold occurs. split.
  - intros (pre & post & E). destruct pre as [|d pre]; simpl in E.
    + injection E as -> _. now left.
    + injection E as -> ->. right. now exists pre, post.
  - intros [-> | (pre & post & ->)].
    + now exists "", s.
    + now exists (String c pre), post.
Qed.

Lemma occurs_char_empty (sep : ascii) : ~ occurs (String sep "") "".
Proof. intros (pre & post & E). destruct pre; discriminate. Qed.

(** The segments of [split]: the last one is free of the separator, and
    it is the whole string when there is no other segment and what
    follows the final separator when there is. *)
Lemma split_snoc (sep : ascii) (s : string) :
  exists init a,
    split sep s = (init ++ [a])%list /\
    ~ occurs (String sep "") a /\
    (init = [] -> s = a) /\
    (init <> [] -> exists pre, s = pre ++ String sep a).
Proof.
  induction s as [|c s (init & a & Hsplit & Hfree & Hnil & Hcons)]; simpl.
  - exists [], "". repeat split; auto using occurs_char_empty. intros []; reflexivity.
  - destruct (Ascii.eqb_spec c sep) as [-> | Hne].
    + exists ("" :: init), a. rewrite Hsplit. repeat split; auto; try discriminate.
      intros _. destruct init as [|seg init].
      * rewrite (Hnil eq_refl). now exists "".
      * destruct Hcons as [pre ->]; [discriminate|]. now exists (String sep pre).
    + rewrite Hsplit. destruct init as [|seg init]; simpl.
      * exists [], (String c a). rewrite (Hnil eq_refl). repeat split; auto.
        -- rewrite occurs_char_cons. intros [? | ?]; contradiction.
        -- intros []; reflexivity.
      * exists (String c seg :: init), a. repeat split; auto; try discriminate.
        intros _. destruct Hcons as [pre ->]; [discriminate|]. now exists (String c pre).
Qed.

(** Joining the segments with the separator gives the string back, and
    no segment holds the separator: [split] cuts at every occurrence and
    nowhere else. *)
Lemma join_split (sep : ascii) (s : string) : join sep (split sep s) = s.
Proof.
  induction s as [|c s IH]; [reflexivity|]. simpl.
  destruct (Ascii.eqb_spec c sep) as [-> | Hne].
  - destruct (split sep s) as [|seg segs] eqn:E.
    + destruct (split_snoc sep s) as (init & a & Hs & _).
      rewrite E in Hs. now destruct init.
    + change (join sep ("" :: seg :: segs))
        with ("" ++ String sep (join sep (seg :: segs))).
      now rewrite IH.
  - destruct (split sep s) as [|seg segs] eqn:E.
    + destruct (split_snoc sep s) as (init & a & Hs & _).
      rewrite E in Hs. now destruct init.
    + rewrite <- IH. now destruct segs.
Qed.

Lemma split_free (sep : ascii) (s : string) :
  Forall (fun seg => ~ occurs (String sep "") seg) (split sep s).
Proof.
  induction s as [|c s IH]; simpl.
  - repeat constructor. apply occurs_char_empty.
  - destruct (Ascii.eqb_spec c sep) as [-> | Hne].
    + constructor; [apply occurs_char_empty | exact IH].
    + destruct (split sep s) as [|seg segs]; repeat constructor.
      * rewrite occurs_char_cons. intros [? | ?]; [contradiction|].
        now apply occurs_char_empty in H.
      * inversion IH; subst. rewrite occurs_char_cons. tauto.
      * now inversion IH.
Qed.

Example split_delays : split "," "2,,3" = ["2"; ""; "3"].
Proof. reflexivity. Qed.

Lemma split_nonempty (sep : ascii) (s : string) : split sep s <> [].
Proof.
  destruct (split_snoc sep s) as (init & a & -> & _). now destruct init.
Qed.

(** Where the separator occurs, [split(sep)[-1]] is what follows its final
    occurrence. *)
Lemma index_last_split (sep : ascii) (s : string) :
  occurs (String sep "") s ->
  exists a, index_last (split sep s) = Ok a /\ after_final sep s a.
Proof.
  intros Hocc. destruct (split_snoc sep s) as (init & a & Hsplit & Hfree & Hnil & Hcons).
  exists a. unfold index_last. rewrite Hsplit, last_snoc. split; [reflexivity|].
  split; [| exact Hfree].
  destruct init as [|seg init].
  - rewrite <- (Hnil eq_refl) in Hfree. contradiction.
  - apply Hcons. discriminate.
Qed.

End StrFacts.

(** ** The threaded server: request paths *)

Section PathFacts.

Import Str Threaded.

Lemma secs_has_slash (p : string) :
  occurs "/secs/" p -> occurs (String slash "") p.
Proof.
  intros (pre & post & ->). exists pre, ("secs/" ++ post). reflexivity.
Qed.

(** The part after the final separator is determined by the string. *)
Lemma after_final_unique (sep : ascii) (p a b : string) :
  after_final sep p a -> after_final sep p b -> a = b.
Proof.
  intros [[pre1 E1] F1] [[pre2 E2] F2]. subst p.
  revert pre2 E2; induction pre1 as [|c pre1 IH]; intros [|d pre2] E; simpl in E.
  - now injection E.
  - injection E as _ ->. destruct F1. now exists pre2, b.
  - injection E as _ <-. destruct F2. now exists pre1, a.
  - injection E as _ E. eauto.
Qed.

(** [parse_path] never raises: [split] yields at least one part. *)
Lemma parse_path_total (p : string) : exists req, parse_path p = Ok req.
Proof.
  unfold parse_path, index_last.
  destruct (contains "/secs/" p); [| eauto].
  destruct (split_snoc slash p) as (init & a & -> & _).
  rewrite last_snoc. eauto.
Qed.

(** Where "/secs/" occurs, the request is the batch request whose args
    are what follows the final "/". *)
Lemma parse_path_batch (p : string) :
  occurs "/secs/" p ->
  exists a, after_final slash p a /\
            parse_path p = Ok (mkRequestPath "/secs/" (ArgStr a)).
Proof.
  intros Hocc. unfold parse_path.
  rewrite (proj2 (contains_spec _ _) Hocc).
  destruct (index_last_split slash p (secs_has_slash p Hocc)) as (a & -> & Ha).
  eauto.
Qed.

(** Where it does not, the request keeps the path and the default args. *)
Lemma parse_path_plain (p : string) :
  ~ occurs "/secs/" p ->
  parse_path p = Ok (mkRequestPath p (ArgList [])).
Proof.
  intros Hocc. unfold parse_path.
  now rewrite (proj2 (contains_false _ _) Hocc).
Qed.

(** The two shapes of a parsed request, as the handler tests them. *)
Lemma parse_path_cases (p : string) :
  (exists a, parse_path p = Ok (mkRequestPath "/secs/" (ArgStr a))) \/
  (parse_path p = Ok (mkRequestPath p (ArgList [])) /\
   String.eqb p "/secs/" = false).
Proof.
  destruct (contains "/secs/" p) eqn:E.
  - left. apply contains_spec in E.
    destruct (parse_path_batch p E) as (a & _ & Ha). eauto.
  - right. apply contains_false in E. split; [now apply parse_path_plain|].
    apply String.eqb_neq. intros ->. apply E. now exists "", "".
Qed.

(** CLAIM C9.  For every path string [p]: when "/secs/" occurs in [p],
    [parse_path p] is the [RequestPath] with path "/secs/" and with args
    the part of [p] after its final "/"; otherwise it is the
    [RequestPath] with path [p] itself and the empty default args.  The
    first form is returned exactly when "/secs/" occurs in [p]. *)
Theorem parse_path_spec (p : string) :
  (occurs "/secs/" p ->
   exists a, after_final slash p a /\
             parse_path p = Ok (mkRequestPath "/secs/" (ArgStr a))) /\
  (~ occurs "/secs/" p ->
   parse_path p = Ok (mkRequestPath p (ArgList []))) /\
  ((exists a, parse_path p = Ok (mkRequestPath "/secs/" (ArgStr a)))
   <-> occurs "/secs/" p).
Proof.
  split; [apply parse_path_batch | split; [apply parse_path_plain |]].
  split.
  - intros [a Ha]. destruct (contains "/secs/" p) eqn:E.
    + now apply contains_spec.
    + apply contains_false in E. rewrite (parse_path_plain p E) in Ha. discriminate.
  - intros Hocc. destruct (parse_path_batch p Hocc) as (a & _ & Ha). eauto.
Qed.

Lemma parse_path_spec_witness :
  occurs "/secs/" "/secs/2,3" /\
  exists a, after_final slash "/secs/2,3" a /\
            parse_path "/secs/2,3" = Ok (mkRequestPath "/secs/" (ArgStr a)).
Proof.
  assert (H : occurs "/secs/" "/secs/2,3") by (now exists "", "2,3").
  split; [exact H | exact (proj1 (parse_path_spec "/secs/2,3") H)].
Defined.

Example parse_path_secs :
  parse_path "/secs/2,3" = Ok (mkRequestPath "/secs/" (ArgStr "2,3")).
Proof. reflexivity. Qed.

Example parse_path_nested :
  parse_path "/a/secs/b/7" = Ok (mkRequestPath "/secs/" (ArgStr "7")).
Proof. reflexivity. Qed.

Example parse_path_other :
  parse_path "/favicon.ico" = Ok (mkRequestPath "/favicon.ico" (ArgList [])).
Proof. reflexivity. Qed.

End PathFacts.

(** ** The threaded server: the runtime *)

Section ThreadedFacts.

Import Threaded.
Context `{Network}.

Local Open Scope nat_scope.
Local Open Scope list_scope.

Lemma deref_assign (r r' : Ref) (l : list Json) (h : Heap) :
  deref r' (assign r l h) = if decide (r = r') then l else deref r' h.
Proof. destruct r, r'; reflexivity. Qed.

Lemma deref_grow (r r' : Ref) (o : Result Json) (h : Heap) :
  deref r' (grow r o h) =
  deref r' h ++ (if decide (r = r') then option_list (value_of o) else []).
Proof.
  destruct o as [v|e]; simpl.
  - rewrite deref_assign. destruct (decide (r = r')) as [->|]; simpl;
      [reflexivity | now rewrite app_nil_r].
  - destruct (decide (r = r')); now rewrite app_nil_r.
Qed.

(** [perform_request] step by step: the transport, the decoder, the
    append. *)
Lemma perform_request_eq (me : nat) (url : string) (r : Ref) (w : World) :
  perform_request me url (Some r) w =
  match answer (upstream me url) with
  | Raise e => (Raise e, w)
  | Ok res =>
      match json_loads (text res) with
      | Raise e => (Raise e, w)
      | Ok v =>
          (Ok res,
           mkWorld (clock w) (assign r (deref r (heap w) ++ [v]) (heap w))
                   (threads w))
      end
  end.
Proof.
  unfold perform_request, requests_get, bind, lift, list_append, ret; simpl.
  destruct (answer (upstream me url)) as [res|e]; [| reflexivity].
  destruct (json_loads (text res)); reflexivity.
Qed.

(** Its effect on the world and the state it leaves its thread in depend
    on the Outcome alone. *)
Lemma perform_request_outcome (me : nat) (url : string) (r : Ref) (w : World) :
  let '(res, w') := perform_request me url (Some r) w in
  exit_state res = exit_state (outcome me url) /\
  w' = mkWorld (clock w) (grow r (outcome me url) (heap w)) (threads w).
Proof.
  rewrite perform_request_eq. unfold outcome.
  destruct (answer (upstream me url)) as [res|e]; simpl.
  - destruct (json_loads (text res)); simpl; split; try reflexivity; now destruct w.
  - split; [reflexivity | now destruct w].
Qed.

Lemma is_running_exit {A} (r : Result A) (th : Thread) :
  is_running (thread_with_state (exit_state r) th) = false.
Proof. now destruct r. Qed.

Lemma settled_not_running (th : Thread) : is_running (settled th) = false.
Proof.
  unfold settled. destruct (is_running th) eqn:E; [apply is_running_exit | exact E].
Qed.

Lemma settled_idem (th : Thread) : settled (settled th) = settled th.
Proof.
  unfold settled at 1. now rewrite settled_not_running.
Qed.

Lemma settled_id (th : Thread) : is_running th = false -> settled th = th.
Proof. unfold settled. now intros ->. Qed.

Lemma finish_time_settled (th : Thread) :
  finish_time (settled th) = finish_time th.
Proof. unfold settled. now destruct (is_running th). Qed.

(** Completing a thread, in closed form. *)
Lemma complete_eq (i : nat) (w : World) :
  complete i w =
  match threads w !! i with
  | Some th =>
      if is_running th then
        mkWorld (clock w) (grow (th_results th) (thread_outcome th) (heap w))
                (alter settled i (threads w))
      else w
  | None => w
  end.
Proof.
  unfold complete. destruct (threads w !! i) as [th|] eqn:E; [| reflexivity].
  destruct (is_running th) eqn:R; [| reflexivity].
  pose proof (perform_request_outcome (ident th) (th_url th) (th_results th) w) as P.
  destruct (perform_request _ _ _ w) as [res w']. destruct P as [Hs ->]. simpl.
  f_equal. apply list_eq; intros j. rewrite !list_lookup_alter.
  destruct (decide (i = j)) as [<-|]; [| reflexivity].
  rewrite E. simpl. unfold settled. now rewrite R, Hs.
Qed.

Lemma complete_clock (i : nat) (w : World) : clock (complete i w) = clock w.
Proof.
  rewrite complete_eq. destruct (threads w !! i) as [th|]; [| reflexivity].
  now destruct (is_running th).
Qed.

Lemma complete_threads (i : nat) (w : World) :
  threads (complete i w) = alter settled i (threads w).
Proof.
  rewrite complete_eq. destruct (threads w !! i) as [th|] eqn:E.
  - destruct (is_running th) eqn:R; [reflexivity|].
    apply list_eq; intros j. rewrite list_lookup_alter.
    destruct (decide (i = j)) as [<-|]; [| reflexivity].
    rewrite E. simpl. now rewrite settled_id.
  - apply list_eq; intros j. rewrite list_lookup_alter.
    destruct (decide (i = j)) as [<-|]; [| reflexivity]. now rewrite E.
Qed.


(** *** What a list object is going to hold *)

Lemma pending_app (r : Ref) (l1 l2 : list Thread) :
  pending r (l1 ++ l2) = pending r l1 ++ pending r l2.
Proof. apply omap_app. Qed.

Lemma pending_settle (r : Ref) (i : nat) (ths : list Thread) (th : Thread) :
  ths !! i = Some th -> is_running th = true ->
  pending r ths ≡ₚ
  (if decide (th_results th = r)
   then option_list (value_of (thread_outcome th)) else [])
  ++ pending r (alter settled i ths).
Proof.
  intros Hi Hrun.
  pose proof (lookup_lt_Some _ _ _ Hi) as Hlt.
  rewrite <- (take_drop_middle ths i th Hi) at 1 2.
  rewrite alter_app_r_alt by (rewrite length_take; lia).
  rewrite length_take, Nat.min_l, Nat.sub_diag by lia. simpl.
  rewrite !pending_app.
  change (settled th :: drop (S i) ths) with ([settled th] ++ drop (S i) ths).
  change (th :: drop (S i) ths) with ([th] ++ drop (S i) ths).
  rewrite !pending_app.
  assert (E1 : pending r [settled th] = []).
  { unfold pending; simpl. now rewrite settled_not_running. }
  assert (E2 : pending r [th] =
               if decide (th_results th = r)
               then option_list (value_of (thread_outcome th)) else []).
  { unfold pending; simpl. rewrite Hrun. simpl.
    destruct (decide (th_results th = r)) as [E|E].
    - rewrite bool_decide_eq_true_2 by exact E.
      now destruct (value_of (thread_outcome th)).
    - now rewrite bool_decide_eq_false_2 by exact E. }
  rewrite E1, E2. simpl.
  rewrite (Permutation_app_comm (pending r (take i ths))).
  rewrite <- !app_assoc. apply Permutation_app_head.
  apply Permutation_app_comm.
Qed.

(** Completing a thread moves its payload from what is pending to what
    is held. *)
Lemma holdings_complete (r : Ref) (i : nat) (w : World) :
  holdings r (complete i w) ≡ₚ holdings r w.
Proof.
  rewrite complete_eq. destruct (threads w !! i) as [th|] eqn:E; [| reflexivity].
  destruct (is_running th) eqn:R; [| reflexivity].
  unfold holdings; simpl. rewrite deref_grow.
  rewrite (pending_settle r i (threads w) th E R).
  now rewrite app_assoc.
Qed.

Lemma holdings_completes (r : Ref) (ids : list nat) (w : World) :
  holdings r (foldl (fun w i => complete i w) w ids) ≡ₚ holdings r w.
Proof.
  revert w; induction ids as [|i ids IH]; intros w; simpl; [reflexivity|].
  now rewrite IH, holdings_complete.
Qed.

Lemma completes_clock (ids : list nat) (w : World) :
  clock (foldl (fun w i => complete i w) w ids) = clock w.
Proof.
  revert w; induction ids as [|i ids IH]; intros w; simpl; [reflexivity|].
  now rewrite IH, complete_clock.
Qed.

(** After a round of completions a thread is settled when it was in the
    round and untouched when it was not. *)
Lemma completes_lookup (ids : list nat) (w : World) (j : nat) :
  threads (foldl (fun w i => complete i w) w ids) !! j =
  if decide (j ∈ ids) then settled <$> threads w !! j else threads w !! j.
Proof.
  revert w; induction ids as [|i ids IH]; intros w; simpl.
  - destruct (decide (j ∈ [])) as [Hin|]; [| reflexivity]. now apply elem_of_nil in Hin.
  - rewrite IH, complete_threads, list_lookup_alter.
    destruct (decide (i = j)) as [->|Hne].
    + rewrite (decide_True (P := j ∈ j :: ids)) by apply list_elem_of_here.
      destruct (decide (j ∈ ids)); [| reflexivity].
      destruct (threads w !! j); simpl; [| reflexivity]. now rewrite settled_idem.
    + destruct (decide (j ∈ ids)) as [Hin|Hin].
      * now rewrite (decide_True (P := j ∈ i :: ids)) by now apply list_elem_of_further.
      * rewrite (decide_False (P := j ∈ i :: ids)); [reflexivity|].
        rewrite elem_of_cons. intros [->|?]; contradiction.
Qed.


(** *** The passage of time *)

Lemma insert_by_perm (key : nat -> nat) (i : nat) (l : list nat) :
  insert_by key i l ≡ₚ i :: l.
Proof.
  induction l as [|j l IH]; simpl; [reflexivity|].
  destruct (key i <=? key j); [reflexivity|].
  rewrite IH. apply Permutation_swap.
Qed.

Lemma schedule_perm (t : nat) (w : World) : schedule t w ≡ₚ due t w.
Proof.
  unfold schedule. induction (due t w) as [|i l IH]; simpl; [reflexivity|].
  now rewrite insert_by_perm, IH.
Qed.

Lemma elem_of_schedule (t : nat) (w : World) (j : nat) :
  j ∈ schedule t w <-> is_due t w j = true.
Proof.
  rewrite schedule_perm. unfold due.
  rewrite list_elem_of_In, filter_In, <- list_elem_of_In, elem_of_seq.
  split; [tauto|]. intros Hd. split; [| exact Hd].
  unfold is_due in Hd. destruct (threads w !! j) eqn:E; [| discriminate].
  apply lookup_lt_Some in E. lia.
Qed.

Lemma advance_clock (t : nat) (w : World) :
  clock (advance t w) = Nat.max (clock w) t.
Proof. unfold advance; simpl. now rewrite completes_clock. Qed.

Lemma advance_threads (t : nat) (w : World) :
  threads (advance t w) = settle_by t <$> threads w.
Proof.
  apply list_eq; intros j. unfold advance; simpl.
  rewrite completes_lookup, list_lookup_fmap.
  destruct (decide (j ∈ schedule t w)) as [Hin|Hin];
    rewrite elem_of_schedule in Hin; unfold is_due in Hin;
    destruct (threads w !! j) as [th|]; simpl; try reflexivity.
  - unfold settle_by. now rewrite Hin.
  - unfold settle_by. now destruct (is_running th && (finish_time th <=? t)).
Qed.

Lemma holdings_advance (r : Ref) (t : nat) (w : World) :
  holdings r (advance t w) ≡ₚ holdings r w.
Proof. unfold advance. apply (holdings_completes r (schedule t w) w). Qed.

Lemma evolves_refl (th : Thread) : evolves th th.
Proof. now left. Qed.

Lemma evolves_trans (a b c : Thread) : evolves a b -> evolves b c -> evolves a c.
Proof.
  intros [->| ->] [->| ->]; unfold evolves; auto. right. apply settled_idem.
Qed.

Lemma evolves_settle_by (t : nat) (th : Thread) : evolves th (settle_by t th).
Proof.
  unfold settle_by, evolves. destruct (is_running th && (finish_time th <=? t)); auto.
Qed.

Lemma evolves_finish (th th' : Thread) :
  evolves th th' -> finish_time th' = finish_time th.
Proof. intros [->| ->]; [reflexivity | apply finish_time_settled]. Qed.

Lemma evolves_settled (th th' : Thread) :
  evolves th th' -> settled th' = settled th.
Proof. intros [->| ->]; [reflexivity | apply settled_idem]. Qed.

Lemma ended_by_settle_by (c t : nat) (th : Thread) :
  ended_by c th -> ended_by (Nat.max c t) (settle_by t th).
Proof.
  unfold ended_by, settle_by. intros Hc.
  destruct (is_running th) eqn:R; simpl.
  - destruct (Nat.leb_spec (finish_time th) t); intros Hr.
    + rewrite finish_time_settled. lia.
    + congruence.
  - intros _. specialize (Hc eq_refl). lia.
Qed.


(** *** Joining *)


(** [join] never raises. *)
Lemma Thread_join_ok (tid : nat) (w : World) :
  Thread_join tid w = (Ok tt, (Thread_join tid w).2).
Proof.
  unfold Thread_join. destruct (threads w !! tid) as [th|]; [| reflexivity].
  now destruct (is_running th).
Qed.

Lemma for_each_join (tids : list nat) (w : World) :
  for_each Thread_join tids w = (Ok tt, join_all tids w).
Proof.
  revert w; induction tids as [|tid tids IH]; intros w; simpl; [reflexivity|].
  unfold bind. rewrite Thread_join_ok. apply IH.
Qed.

Lemma join_holdings (r : Ref) (tid : nat) (w : World) :
  holdings r (Thread_join tid w).2 ≡ₚ holdings r w.
Proof.
  unfold Thread_join. destruct (threads w !! tid) as [th|]; [| reflexivity].
  destruct (is_running th); [apply holdings_advance | reflexivity].
Qed.

Lemma join_evolves (tid : nat) (w : World) :
  Forall2 evolves (threads w) (threads (Thread_join tid w).2).
Proof.
  unfold Thread_join. destruct (threads w !! tid) as [th|];
    [destruct (is_running th) |]; cbn [snd].
  2,3: apply Forall_Forall2_diag, Forall_forall; intros; apply evolves_refl.
  rewrite advance_threads. apply Forall2_fmap_r, Forall_Forall2_diag, Forall_forall.
  intros; apply evolves_settle_by.
Qed.

Lemma join_clock_le (tid : nat) (w : World) :
  clock w <= clock (Thread_join tid w).2.
Proof.
  unfold Thread_join. destruct (threads w !! tid) as [th|];
    [destruct (is_running th) |]; cbn [snd]; try lia.
  rewrite advance_clock. lia.
Qed.

(** The joined thread has ended when [join] returns, and the clock stands
    at the later of the instant of the call and the instant the thread
    ended. *)
Lemma join_target (tid : nat) (w : World) (th : Thread) :
  threads w !! tid = Some th ->
  ended_by (clock w) th ->
  threads (Thread_join tid w).2 !! tid = Some (settled th) /\
  clock (Thread_join tid w).2 = Nat.max (clock w) (finish_time th).
Proof.
  intros Hth Hend. unfold Thread_join. rewrite Hth.
  destruct (is_running th) eqn:R; cbn [snd].
  - rewrite advance_threads, advance_clock, list_lookup_fmap, Hth. simpl.
    unfold settle_by. rewrite R, Nat.leb_refl. auto.
  - rewrite Hth, settled_id by exact R. specialize (Hend R).
    split; [reflexivity | lia].
Qed.

(** A thread that had ended by the clock before a [join] has ended by
    the clock after it. *)
Lemma join_ended_by (tid j : nat) (w : World) (th th' : Thread) :
  threads w !! j = Some th ->
  ended_by (clock w) th ->
  threads (Thread_join tid w).2 !! j = Some th' ->
  ended_by (clock (Thread_join tid w).2) th'.
Proof.
  unfold Thread_join. destruct (threads w !! tid) as [t0|];
    [destruct (is_running t0) |]; cbn [snd].
  2,3: intros E1 Hend E2; rewrite E1 in E2; now injection E2 as <-.
  rewrite advance_threads, advance_clock, list_lookup_fmap.
  intros -> Hend [= <-]. now apply ended_by_settle_by.
Qed.

Lemma join_all_holdings (r : Ref) (tids : list nat) (w : World) :
  holdings r (join_all tids w) ≡ₚ holdings r w.
Proof.
  revert w; induction tids as [|tid tids IH]; intros w; simpl; [reflexivity|].
  unfold join_all in *. simpl. now rewrite IH, join_holdings.
Qed.

Lemma join_all_evolves (tids : list nat) (w : World) :
  Forall2 evolves (threads w) (threads (join_all tids w)).
Proof.
  revert w; induction tids as [|tid tids IH]; intros w.
  - apply Forall_Forall2_diag, Forall_forall; intros; apply evolves_refl.
  - unfold join_all in *; simpl.
    eapply Forall2_trans; [| apply (join_evolves tid w) | apply IH].
    intros ? ? ?; apply evolves_trans.
Qed.

Lemma join_all_clock_le (tids : list nat) (w : World) :
  clock w <= clock (join_all tids w).
Proof.
  revert w; induction tids as [|tid tids IH]; intros w;
    unfold join_all in *; simpl; [lia|].
  etransitivity; [apply (join_clock_le tid) | apply IH].
Qed.

(** The barrier and the clock: when the loop is over every joined thread
    has ended, no later than the clock shows, and the clock stands at the
    latest of the instant the loop began and the instants the joined
    threads ended. *)
Lemma join_all_spec (tids : list nat) (w : World) :
  (forall tid, tid ∈ tids ->
     exists th, threads w !! tid = Some th /\ ended_by (clock w) th) ->
  (forall tid th, tid ∈ tids -> threads w !! tid = Some th ->
     threads (join_all tids w) !! tid = Some (settled th) /\
     finish_time th <= clock (join_all tids w)) /\
  clock (join_all tids w) =
    Nat.max (clock w) (max_list (finish_of w <$> tids)).
Proof.
  revert w; induction tids as [|tid tids IH]; intros w Hpre.
  - split; [| simpl; lia]. intros tid th Hin. now apply elem_of_nil in Hin.
  - destruct (Hpre tid (list_elem_of_here _ _)) as (th0 & Hth0 & Hend0).
    destruct (join_target tid w th0 Hth0 Hend0) as [Hset Hclk].
    set (w1 := (Thread_join tid w).2) in *.
    assert (Hpre1 : forall j, j ∈ tids ->
              exists th, threads w1 !! j = Some th /\ ended_by (clock w1) th).
    { intros j Hj.
      destruct (Hpre j (list_elem_of_further _ _ _ Hj)) as (th & Hth & Hend).
      destruct (Forall2_lookup_l _ _ _ _ _ (join_evolves tid w) Hth)
        as (th' & Hth' & _).
      exists th'. split; [exact Hth'|]. eapply join_ended_by; eauto. }
    destruct (IH w1 Hpre1) as [IHa IHc].
    change (join_all (tid :: tids) w) with (join_all tids w1).
    split.
    + intros j th Hin Hth.
      destruct (Forall2_lookup_l _ _ _ _ _ (join_evolves tid w) Hth)
        as (th1 & Hth1 & Hev1).
      fold w1 in Hth1.
      apply elem_of_cons in Hin as [-> | Hin].
      * rewrite Hth0 in Hth. injection Hth as <-.
        destruct (Forall2_lookup_l _ _ _ _ _ (join_all_evolves tids w1) Hset)
          as (th2 & Hth2 & Hev2).
        split.
        -- rewrite Hth2. f_equal.
           destruct Hev2 as [->| ->]; [reflexivity | apply settled_idem].
        -- pose proof (join_all_clock_le tids w1). lia.
      * destruct (IHa j th1 Hin Hth1) as [Hj Hle].
        rewrite Hj, (evolves_settled _ _ Hev1), <- (evolves_finish _ _ Hev1). auto.
    + rewrite IHc, Hclk.
      assert (Hfin : finish_of w1 <$> tids = finish_of w <$> tids).
      { apply list_fmap_ext. intros i j Hj. unfold finish_of.
        destruct (threads w !! j) as [th|] eqn:E.
        - destruct (Forall2_lookup_l _ _ _ _ _ (join_evolves tid w) E)
            as (th' & Hth' & Hev).
          fold w1 in Hth'. rewrite Hth'. simpl. now apply evolves_finish.
        - pose proof (Forall2_length _ _ _ (join_evolves tid w)) as Hlen.
          fold w1 in Hlen. apply lookup_ge_None in E.
          rewrite (proj2 (lookup_ge_None (threads w1) j)) by lia. reflexivity. }
      assert (Hfin0 : finish_of w tid = finish_time th0)
        by (unfold finish_of; now rewrite Hth0).
      rewrite Hfin, fmap_cons, Hfin0.
      change (max_list (finish_time th0 :: (finish_of w <$> tids)))
        with (Nat.max (finish_time th0) (max_list (finish_of w <$> tids))).
      lia.
Qed.

(** *** Launching *)

Lemma launch_all (r : Ref) (segs : list string) (w : World) :
  comprehension
    (fun secs =>
       launch_request_thread ("http://httpbin.org/delay/" ++ secs)%string (Some r))
    segs w =
  (Ok (seq (length (threads w)) (length segs)),
   mkWorld (clock w) (heap w)
     (threads w ++
      imap (fun k secs =>
              mkThread (length (threads w) + k)
                       ("http://httpbin.org/delay/" ++ secs)%string
                       r (clock w) Running) segs)).
Proof.
  revert w; induction segs as [|secs segs IH]; intros w.
  - simpl. unfold ret. rewrite app_nil_r. now destruct w.
  - cbn [comprehension]. unfold bind at 1.
    unfold launch_request_thread, Thread_start, bind, ret at 1; cbn [default].
    unfold bind. rewrite IH. unfold ret; cbn [clock heap threads length].
    rewrite length_app; cbn [length]. rewrite Nat.add_1_r.
    f_equal. f_equal. rewrite <- app_assoc. f_equal. cbn [app imap].
    rewrite Nat.add_0_r. f_equal.
    apply imap_ext. intros k x _. cbn. f_equal. lia.
Qed.

(** CLAIM C10.  For every args string [s], [process_req] starts exactly
    one thread for each segment of [s.split(",")], in the order of the
    segments, each with the URL "http://httpbin.org/delay/" followed by
    its segment as it stands, and returns these threads; with the empty
    args string that is one thread, for "http://httpbin.org/delay/", and
    not none. *)
Theorem process_req_launches (p s : string) (results : option Ref) (w : World) :
  process_req (mkRequestPath p (ArgStr s)) results w =
    (Ok (seq (length (threads w)) (length (Str.split comma s))),
     mkWorld (clock w) (heap w)
       (threads w ++
        imap (fun k secs =>
                mkThread (length (threads w) + k)
                         ("http://httpbin.org/delay/" ++ secs)%string
                         (default process_req_default results)
                         (clock w) Running)
             (Str.split comma s))) /\
  length (Str.split comma s) >= 1 /\
  process_req (mkRequestPath p (ArgStr "")) results w =
    (Ok [length (threads w)],
     mkWorld (clock w) (heap w)
       (threads w ++
        [mkThread (length (threads w)) "http://httpbin.org/delay/"
                  (default process_req_default results) (clock w) Running])).
Proof.
  assert (E : forall a, process_req (mkRequestPath p (ArgStr a)) results w =
                comprehension
                  (fun secs =>
                     launch_request_thread
                       ("http://httpbin.org/delay/" ++ secs)%string
                       (Some (default process_req_default results)))
                  (Str.split comma a) w) by reflexivity.
  split; [| split].
  - rewrite E. apply launch_all.
  - pose proof (split_nonempty comma s). destruct (Str.split comma s); [contradiction | simpl; lia].
  - rewrite E, launch_all. cbn. now rewrite Nat.add_0_r.
Qed.

Example process_req_two :
  (process_req (H := Demo.httpbin) (mkRequestPath "/secs/" (ArgStr "2,3")) None boot).1
  = Ok [0; 1].
Proof. reflexivity. Qed.

Lemma length_units (w : World) (a : string) :
  length (units w a) = length (Str.split comma a).
Proof. unfold units, delay_urls. now rewrite length_imap, length_fmap. Qed.

Lemma process_req_launch (p a : string) (w : World) :
  process_req (mkRequestPath p (ArgStr a)) None w =
  (Ok (seq (length (threads w)) (length (units w a))), launch w a).
Proof.
  change (process_req (mkRequestPath p (ArgStr a)) None w)
    with (comprehension
            (fun secs =>
               launch_request_thread
                 ("http://httpbin.org/delay/" ++ secs)%string
                 (Some process_req_default))
            (Str.split comma a) w).
  rewrite launch_all, length_units.
  f_equal. unfold launch. f_equal. f_equal.
  unfold launched, units, delay_urls. apply list_eq; intros k.
  rewrite list_lookup_fmap, !list_lookup_imap, list_lookup_fmap.
  now destruct (Str.split comma a !! k).
Qed.

(** The handler when the request names a batch. *)
Lemma do_GET_secs (p a : string) (w : World) :
  parse_path p = Ok (mkRequestPath "/secs/" (ArgStr a)) ->
  do_GET p w = (Ok (clock (batch_end w a) - clock w), batch_end w a).
Proof.
  intros Hp. unfold do_GET, bind at 1, lift. rewrite Hp.
  unfold bind at 1, datetime_now. cbn [path String.eqb Ascii.eqb Bool.eqb].
  unfold bind at 1. unfold bind at 1. rewrite process_req_launch, for_each_join.
  reflexivity.
Qed.

(** The handler when it does not. *)
Lemma do_GET_other (p : string) (w : World) :
  parse_path p = Ok (mkRequestPath p (ArgList [])) ->
  String.eqb p "/secs/" = false ->
  do_GET p w = (Ok 0, w).
Proof.
  intros Hp Hne. unfold do_GET, bind at 1, lift. rewrite Hp.
  unfold bind at 1, datetime_now. cbn [path]. rewrite Hne.
  unfold bind, ret, get_elapsed, datetime_now, bind, ret. now rewrite Nat.sub_diag.
Qed.


(** *** One batch from the start of its threads to the end of the loop *)

Lemma max_list_shift (c : nat) (l : list nat) :
  Nat.max c (max_list ((fun d => c + d) <$> l)) = c + max_list l.
Proof.
  induction l as [|d l IH]; simpl; [lia|].
  change (list_fmap nat nat (fun d => c + d) l) with ((fun d => c + d) <$> l).
  lia.
Qed.

Lemma pending_idle (r : Ref) (ths : list Thread) :
  Forall (fun th => is_running th = false) ths -> pending r ths = [].
Proof.
  induction 1 as [|th ths Hth _ IH]; [reflexivity|].
  unfold pending in *; simpl. rewrite Hth. exact IH.
Qed.

Lemma launched_lookup (w : World) (a : string) (k : nat) (u : nat * string) :
  units w a !! k = Some u ->
  threads (launch w a) !! (length (threads w) + k) =
  Some (mkThread u.1 u.2 process_req_default (clock w) Running).
Proof.
  intros Hu. unfold launch; cbn [threads].
  rewrite lookup_app_r by lia.
  replace (length (threads w) + k - length (threads w)) with k by lia.
  unfold launched. now rewrite list_lookup_fmap, Hu.
Qed.

Lemma launched_old (w : World) (a : string) (i : nat) :
  i < length (threads w) -> threads (launch w a) !! i = threads w !! i.
Proof. intros Hi. unfold launch; cbn [threads]. now apply lookup_app_l. Qed.

Lemma pending_launched (r : Ref) (w : World) (a : string) :
  pending r (launched w a) =
  if decide (r = process_req_default) then payloads w a else [].
Proof.
  unfold launched, payloads, pending.
  destruct (decide (r = process_req_default)) as [->|Hne];
    induction (units w a) as [|u us IH]; try reflexivity; simpl.
  - unfold thread_outcome at 1; simpl.
    destruct (value_of (outcome u.1 u.2)); [f_equal|]; exact IH.
  - rewrite bool_decide_eq_false_2 by congruence. exact IH.
Qed.

Section Batch.

Variables (w : World) (a : string).

Lemma batch_pre (tid : nat) :
  tid ∈ seq (length (threads w)) (length (units w a)) ->
  exists th, threads (launch w a) !! tid = Some th /\
             ended_by (clock (launch w a)) th.
Proof.
  rewrite elem_of_seq. intros [Hlo Hhi].
  destruct (lookup_lt_is_Some_2 (units w a) (tid - length (threads w))) as [u Hu];
    [lia|].
  pose proof (launched_lookup w a _ u Hu) as Hth.
  replace (length (threads w) + (tid - length (threads w))) with tid in Hth by lia.
  eexists; split; [exact Hth|]. intros Hr. discriminate.
Qed.

(** Every thread of the batch has run its target to the end when the
    loop is over, and did so by then. *)
Lemma batch_settled (k : nat) (u : nat * string) :
  units w a !! k = Some u ->
  threads (batch_end w a) !! (length (threads w) + k) =
    Some (mkThread u.1 u.2 process_req_default (clock w)
                   (exit_state (outcome u.1 u.2))) /\
  clock w + latency (upstream u.1 u.2) <= clock (batch_end w a).
Proof.
  intros Hu. pose proof (lookup_lt_Some _ _ _ Hu) as Hk.
  destruct (join_all_spec _ _ batch_pre) as [Hall _].
  assert (Hin : length (threads w) + k ∈ seq (length (threads w)) (length (units w a)))
    by (apply elem_of_seq; lia).
  destruct (Hall _ _ Hin (launched_lookup w a k u Hu)) as [Hth Hfin].
  split; [exact Hth | exact Hfin].
Qed.

Lemma batch_clock :
  clock (batch_end w a) = clock w + max_list (delays w a).
Proof.
  unfold batch_end. destruct (join_all_spec _ _ batch_pre) as [_ ->].
  cbn [launch clock]. rewrite <- max_list_shift. f_equal. f_equal.
  apply list_eq; intros k. unfold delays.
  rewrite !list_lookup_fmap.
  destruct (decide (k < length (units w a))) as [Hk|Hk].
  - rewrite lookup_seq_lt by exact Hk.
    destruct (lookup_lt_is_Some_2 (units w a) k Hk) as [u Hu].
    rewrite Hu.
    change (Some (finish_of (launch w a) (length (threads w) + k)) =
            Some (clock w + latency (upstream u.1 u.2))).
    unfold finish_of. rewrite (launched_lookup w a k u Hu). reflexivity.
  - rewrite lookup_seq_ge by lia.
    now rewrite (proj2 (lookup_ge_None (units w a) k)) by lia.
Qed.

Lemma batch_length :
  length (threads (batch_end w a)) = length (threads w) + length (units w a).
Proof.
  unfold batch_end. rewrite <- (Forall2_length _ _ _ (join_all_evolves _ (launch w a))).
  unfold launch, launched; cbn [threads]. now rewrite length_app, length_fmap.
Qed.

Lemma batch_old (i : nat) (th : Thread) :
  threads w !! i = Some th ->
  exists th', threads (batch_end w a) !! i = Some th' /\ evolves th th'.
Proof.
  intros Hth. pose proof (lookup_lt_Some _ _ _ Hth) as Hi.
  rewrite <- (launched_old w a i Hi) in Hth.
  exact (Forall2_lookup_l _ _ _ _ _ (join_all_evolves _ (launch w a)) Hth).
Qed.

Lemma batch_holdings (r : Ref) :
  holdings r (batch_end w a) ≡ₚ
  holdings r w ++ (if decide (r = process_req_default) then payloads w a else []).
Proof.
  unfold batch_end. rewrite join_all_holdings. unfold holdings, launch; cbn [heap threads].
  now rewrite pending_app, pending_launched, app_assoc.
Qed.

(** When no other unit is in flight as the batch starts, none is when
    the loop is over. *)
Lemma batch_quiescent : quiescent w -> quiescent (batch_end w a).
Proof.
  intros Hq. apply Forall_lookup_2. intros i th' Hth'.
  destruct (decide (i < length (threads w))) as [Hi|Hi].
  - destruct (lookup_lt_is_Some_2 (threads w) i Hi) as [th Hth].
    destruct (batch_old i th Hth) as (th2 & Hth2 & Hev).
    rewrite Hth' in Hth2. injection Hth2 as <-.
    pose proof (Forall_lookup_1 _ _ _ _ Hq Hth) as Hr.
    destruct Hev as [E|E]; rewrite E; [exact Hr | apply settled_not_running].
  - pose proof (lookup_lt_Some _ _ _ Hth') as Hlt. rewrite batch_length in Hlt.
    destruct (lookup_lt_is_Some_2 (units w a) (i - length (threads w))) as [u Hu];
      [lia|].
    destruct (batch_settled _ u Hu) as [Hs _].
    replace (length (threads w) + (i - length (threads w))) with i in Hs by lia.
    rewrite Hth' in Hs. injection Hs as ->.
    unfold is_running; cbn. now destruct (outcome u.1 u.2).
Qed.

(** The list object of [process_req] holds, when the loop is over, what
    it held before and the payloads of the Targets that succeeded. *)
Lemma batch_results :
  quiescent w ->
  deref process_req_default (heap (batch_end w a)) ≡ₚ
  deref process_req_default (heap w) ++ payloads w a.
Proof.
  intros Hq. pose proof (batch_holdings process_req_default) as Hh.
  unfold holdings in Hh.
  rewrite (pending_idle _ _ (batch_quiescent Hq)) in Hh.
  rewrite (pending_idle _ _ Hq) in Hh.
  rewrite !app_nil_r in Hh. rewrite Hh.
  now destruct (decide (process_req_default = process_req_default)).
Qed.

End Batch.

End ThreadedFacts.

(** ** The asyncio server *)

Section AsyncFacts.

Import Async.

Local Open Scope nat_scope.
Local Open Scope list_scope.

Lemma first_failure_None {A} (runs : list (nat * Result A)) :
  first_failure runs = None <-> Forall (fun r => error_of r.2 = None) runs.
Proof.
  induction runs as [|[d [v|e]] runs IH]; simpl.
  - split; [constructor | reflexivity].
  - rewrite IH. split; [now constructor | now inversion 1].
  - split.
    + destruct (first_failure runs) as [[d' e']|]; [| discriminate].
      now destruct (d' <? d).
    + inversion 1; discriminate.
Qed.

(** The exception that [gather] raises is one of a child, and no child
    fails earlier. *)
Lemma first_failure_Some {A} (runs : list (nat * Result A)) (d : nat) (e : Exn) :
  first_failure runs = Some (d, e) ->
  (d, Raise e) ∈ runs /\
  forall d' e', (d', Raise e') ∈ runs -> d <= d'.
Proof.
  revert d e; induction runs as [|[d0 [v|e0]] runs IH]; intros d e; simpl.
  - discriminate.
  - intros Hf. destruct (IH _ _ Hf) as [Hin Hmin]. split.
    + now apply list_elem_of_further.
    + intros d' e' Hin'. apply elem_of_cons in Hin' as [[=]|Hin']; eauto.
  - destruct (first_failure runs) as [[d1 e1]|] eqn:Hf.
    + destruct (IH _ _ eq_refl) as [Hin Hmin].
      destruct (Nat.ltb_spec d1 d0); intros [= <- <-]; split.
      * now apply list_elem_of_further.
      * intros d' e' Hin'. apply elem_of_cons in Hin' as [[= -> ->]|Hin']; [lia | eauto].
      * apply list_elem_of_here.
      * intros d' e' Hin'. apply elem_of_cons in Hin' as [[= -> ->]|Hin']; [lia|].
        specialize (Hmin _ _ Hin'). lia.
    + intros [= <- <-]. split; [apply list_elem_of_here|].
      intros d' e' Hin'. apply elem_of_cons in Hin' as [[= -> ->]|Hin']; [lia|].
      apply first_failure_None in Hf.
      apply (proj1 (Forall_forall _ _) Hf) in Hin'. discriminate.
Qed.

(** [gather] with at least one child. *)
Lemma gather_children {A} (coros : list (Coroutine A)) (w : Loop) :
  coros <> [] ->
  gather coros w =
  match first_failure (gather_runs w coros) with
  | Some (d, e) => (Raise e, run_until (now w + d) (gather_start w coros))
  | None =>
      (Ok (omap (fun r => value_of r.2) (gather_runs w coros)),
       run_until (now w + max_list (fst <$> gather_runs w coros))
                 (gather_start w coros))
  end.
Proof. destruct coros; [contradiction | reflexivity]. Qed.

Lemma length_values {A} (runs : list (nat * Result A)) :
  Forall (fun r => error_of r.2 = None) runs ->
  length (omap (fun r => value_of r.2) runs) = length runs.
Proof.
  induction 1 as [|[d [v|e]] runs Hr _ IH]; simpl in *; try discriminate; auto.
Qed.

(** A child of a [gather] in the loop that [gather] leaves behind. *)
Lemma gather_child {A} (coros : list (Coroutine A)) (w : Loop) (t k : nat)
    (r : nat * Result A) :
  gather_runs w coros !! k = Some r ->
  tasks (run_until t (gather_start w coros)) !! (length (tasks w) + k) =
  Some (settle t (mkTask (now w) r.1 (error_of r.2) Pending)).
Proof.
  intros Hr. unfold run_until, gather_start; cbn [tasks].
  rewrite list_lookup_fmap, lookup_app_r by lia.
  replace (length (tasks w) + k - length (tasks w)) with k by lia.
  now rewrite list_lookup_fmap, Hr.
Qed.

Lemma gather_length {A} (coros : list (Coroutine A)) (w : Loop) (t : nat) :
  length (tasks (run_until t (gather_start w coros))) =
  length (tasks w) + length coros.
Proof.
  unfold run_until, gather_start, gather_runs; cbn [tasks].
  now rewrite length_fmap, length_app, length_fmap, length_imap.
Qed.


Context `{Network}.

Lemma get_runs (w : Loop) (urls : list string) :
  gather_runs w (get <$> urls) =
  imap (fun k url => get url (length (tasks w) + k)) urls.
Proof. unfold gather_runs. now rewrite imap_fmap. Qed.

Lemma get_runs_lookup (w : Loop) (urls : list string) (k : nat) :
  gather_runs w (get <$> urls) !! k =
  (fun url => get url (length (tasks w) + k)) <$> urls !! k.
Proof. now rewrite get_runs, list_lookup_imap. Qed.

Lemma get_durations (w : Loop) (urls : list string) :
  fst <$> gather_runs w (get <$> urls) = latencies w urls.
Proof.
  apply list_eq; intros k. unfold latencies.
  rewrite list_lookup_fmap, get_runs_lookup, list_lookup_imap.
  now destruct (urls !! k).
Qed.

Lemma error_of_get (url : string) (me : nat) :
  error_of (get url me).2 = error_of (answer (upstream me url)).
Proof. unfold get; cbn. now destruct (answer (upstream me url)). Qed.

Lemma get_no_failure (w : Loop) (urls : list string) :
  first_failure (gather_runs w (get <$> urls)) = None <-> all_answer w urls.
Proof.
  rewrite first_failure_None, Forall_lookup. unfold all_answer. split.
  - intros Hall k url Hk. rewrite <- error_of_get.
    apply (Hall k). now rewrite get_runs_lookup, Hk.
  - intros Hall k r Hk. rewrite get_runs_lookup in Hk.
    destruct (urls !! k) as [url|] eqn:E; [| discriminate].
    injection Hk as <-. rewrite error_of_get. now apply Hall.
Qed.

(** [main] on a batch whose every Target answers. *)
Lemma main_answers (urls : list string) (w : Loop) :
  all_answer w urls ->
  exists w',
    main urls w = (Ok tt, w') /\
    now w' = now w + max_list (latencies w urls) /\
    length (tasks w') = length (tasks w) + length urls /\
    forall k url, urls !! k = Some url ->
      tasks w' !! (length (tasks w) + k) =
      Some (mkTask (now w) (latency (upstream (length (tasks w) + k) url))
                   None Done).
Proof.
  intros Hall. unfold main, abind.
  destruct (decide (urls = [])) as [->|Hne].
  - exists w. cbn. repeat split; try lia. intros k url Hk. discriminate.
  - rewrite gather_children by (now destruct urls).
    rewrite (proj2 (get_no_failure w urls) Hall), get_durations.
    eexists. split; [reflexivity|]. split; [| split].
    + cbn. lia.
    + now rewrite gather_length, length_fmap.
    + intros k url Hk.
      erewrite gather_child by (rewrite get_runs_lookup, Hk; reflexivity).
      rewrite error_of_get, (Hall k url Hk). unfold settle, get; cbn.
      assert (Hle : latency (upstream (length (tasks w) + k) url)
                    <= max_list (latencies w urls)).
      { apply max_list_elem_of_le, list_elem_of_lookup. exists k.
        unfold latencies. now rewrite list_lookup_imap, Hk. }
      rewrite (proj2 (Nat.leb_le _ _)) by lia. reflexivity.
Qed.

(** [gather] over a batch whose every Target answers yields one value for
    each Target. *)
Lemma gather_answers (urls : list string) (w : Loop) :
  all_answer w urls ->
  exists vs w',
    gather (get <$> urls) w = (Ok vs, w') /\ length vs = length urls.
Proof.
  intros Hall. destruct (decide (urls = [])) as [->|Hne].
  - exists [], w. split; reflexivity.
  - rewrite gather_children by (now destruct urls).
    pose proof (proj2 (get_no_failure w urls) Hall) as Hf. rewrite Hf.
    eexists _, _. split; [reflexivity|].
    rewrite length_values by (now apply first_failure_None).
    unfold gather_runs. now rewrite length_imap, length_fmap.
Qed.

(** [main] raises when the transport fails for some Target, and what it
    raises is the exception of a unit of the batch. *)
Lemma main_raises (urls : list string) (w : Loop) (k : nat) (url : string)
    (e : Exn) :
  urls !! k = Some url ->
  answer (upstream (length (tasks w) + k) url) = Raise e ->
  exists e' w' k' url',
    main urls w = (Raise e', w') /\
    urls !! k' = Some url' /\
    answer (upstream (length (tasks w) + k') url') = Raise e'.
Proof.
  intros Hk He. unfold main, abind.
  rewrite gather_children by (destruct urls; [discriminate Hk | discriminate]).
  destruct (first_failure (gather_runs w (get <$> urls))) as [[d e']|] eqn:Hf.
  - apply first_failure_Some in Hf as [Hin _].
    apply list_elem_of_lookup in Hin as [k' Hk'].
    rewrite get_runs_lookup in Hk'.
    destruct (urls !! k') as [url'|] eqn:E; [| discriminate].
    cbn in Hk'. unfold get in Hk'.
    exists e', (run_until (now w + d) (gather_start w (get <$> urls))), k', url'.
    split; [reflexivity|]. split; [exact E|].
    destruct (answer (upstream (length (tasks w) + k') url')); [discriminate|].
    now injection Hk' as _ ->.
  - apply get_no_failure in Hf. specialize (Hf k url Hk).
    rewrite He in Hf. discriminate.
Qed.

Lemma get_run (url : string) (me d : nat) (e : Exn) :
  get url me = (d, Raise e) ->
  latency (upstream me url) = d /\ answer (upstream me url) = Raise e.
Proof.
  unfold get. destruct (answer (upstream me url)); [discriminate|].
  now intros [= <- <-].
Qed.

(** [main], when it raises. *)
Lemma main_raise_inv (urls : list string) (w w' : Loop) (e : Exn) :
  main urls w = (Raise e, w') ->
  exists d,
    first_failure (gather_runs w (get <$> urls)) = Some (d, e) /\
    w' = run_until (now w + d) (gather_start w (get <$> urls)).
Proof.
  unfold main, abind. destruct (decide (urls = [])) as [->|Hne]; [discriminate|].
  rewrite gather_children by (now destruct urls).
  destruct (first_failure (gather_runs w (get <$> urls))) as [[d e']|];
    [| discriminate].
  intros [= <- <-]. now exists d.
Qed.

(** A unit of the batch in the loop that [main] leaves behind when it
    raises after [d] ticks: it has ended when it needs no longer than
    that, and is pending as it was when it needs longer. *)
Lemma child_after_failure (urls : list string) (w : Loop) (d j : nat)
    (url : string) :
  urls !! j = Some url ->
  tasks (run_until (now w + d) (gather_start w (get <$> urls)))
    !! (length (tasks w) + j) =
  Some (mkTask (now w)
          (latency (upstream (length (tasks w) + j) url))
          (error_of (answer (upstream (length (tasks w) + j) url)))
          (if latency (upstream (length (tasks w) + j) url) <=? d
           then match answer (upstream (length (tasks w) + j) url) with
                | Ok _ => Done
                | Raise e' => Failed e'
                end
           else Pending)).
Proof.
  intros Hj.
  erewrite gather_child by (rewrite get_runs_lookup, Hj; reflexivity).
  f_equal. rewrite error_of_get. unfold get; cbn [fst snd].
  unfold settle, t_finish, is_pending; cbn.
  destruct (Nat.leb_spec (latency (upstream (length (tasks w) + j) url)) d)
    as [Hle|Hgt].
  - rewrite (proj2 (Nat.leb_le _ _)) by lia.
    now destruct (answer (upstream (length (tasks w) + j) url)).
  - rewrite (proj2 (Nat.leb_gt _ _)) by lia. reflexivity.
Qed.

(** [main], when it raises: the exception is that of a unit whose
    transport fails, raised after the ticks that unit takes, and no unit
    fails earlier. *)
Lemma main_raise_unit (urls : list string) (w w' : Loop) (e : Exn) :
  main urls w = (Raise e, w') ->
  exists d,
    w' = run_until (now w + d) (gather_start w (get <$> urls)) /\
    now w' = now w + d /\
    (exists k url,
       urls !! k = Some url /\
       answer (upstream (length (tasks w) + k) url) = Raise e /\
       latency (upstream (length (tasks w) + k) url) = d) /\
    (forall j url e',
       urls !! j = Some url ->
       answer (upstream (length (tasks w) + j) url) = Raise e' ->
       d <= latency (upstream (length (tasks w) + j) url)).
Proof.
  intros Hm. destruct (main_raise_inv urls w w' e Hm) as (d & Hf & ->).
  apply first_failure_Some in Hf as [Hin Hmin].
  exists d. split; [reflexivity|]. split; [cbn; lia|]. split.
  - apply list_elem_of_lookup in Hin as [k Hk].
    rewrite get_runs_lookup in Hk.
    destruct (urls !! k) as [url|] eqn:Eu; [| discriminate].
    cbn [fmap option_fmap option_map] in Hk. apply (inj Some) in Hk.
    apply get_run in Hk as [Hd He]. now exists k, url.
  - intros j url e' Hj He'.
    apply (Hmin _ e'), list_elem_of_lookup. exists j.
    rewrite get_runs_lookup, Hj. cbn. unfold get. now rewrite He'.
Qed.

(** When [main] returns, the transport has answered every Target. *)
Lemma main_returns (urls : list string) (w w' : Loop) :
  main urls w = (Ok tt, w') -> all_answer w urls.
Proof.
  intros Hm. intros k url Hk.
  destruct (answer (upstream (length (tasks w) + k) url)) as [res|e] eqn:E;
    [reflexivity|].
  destruct (main_raises urls w k url e Hk E) as (e' & w2 & _ & _ & Hr & _).
  rewrite Hr in Hm. discriminate.
Qed.

(** [asyncio.run] leaves no task pending. *)
Lemma asyncio_run_settles {A} (coro : Async.Await A) (w : Loop) (i : nat)
    (k : Task) :
  tasks (asyncio_run coro w).2 !! i = Some k -> is_pending k = false.
Proof.
  unfold asyncio_run. destruct (coro w) as [r w']. cbn.
  rewrite list_lookup_fmap. destruct (tasks w' !! i) as [k0|]; [| discriminate].
  intros [= <-]. destruct (is_pending k0) eqn:E; [reflexivity | exact E].
Qed.

Lemma cancel_pending_done (w : Loop) (i : nat) (k : Task) :
  tasks w !! i = Some k -> is_pending k = false ->
  tasks (cancel_pending w) !! i = Some k.
Proof.
  intros Hk Hp. unfold cancel_pending; cbn. now rewrite list_lookup_fmap, Hk; cbn; rewrite Hp.
Qed.

End AsyncFacts.

(** ** The fan-out and fan-in properties *)

Section Claims.

Import Threaded.
Context `{Network}.

Local Open Scope nat_scope.
Local Open Scope list_scope.

Lemma length_payloads_all (w : World) (a : string) :
  Forall (fun u => error_of (outcome u.1 u.2) = None) (units w a) ->
  length (payloads w a) = length (delay_urls a).
Proof.
  unfold payloads. intros Hall.
  replace (length (delay_urls a)) with (length (units w a))
    by (unfold units; apply length_imap).
  induction Hall as [|u us Hu _ IH]; [reflexivity|].
  simpl. destruct (outcome u.1 u.2); [simpl; now f_equal | discriminate].
Qed.

(** CLAIM C1, as amended.  In the threaded server, starting from an
    empty results collection and with no other unit in flight, the run
    of a batch request leaves in the collection exactly the payloads of
    the Targets whose request and whose decoding both succeeded, each
    once and in some order, and nothing for a Target that failed; so it
    holds exactly N Outcomes when all N Targets succeed.  In the asyncio
    server [gather] yields exactly one value for each of the N Targets
    when the transport answers all of them. *)
Theorem run_collects :
  (forall (p a : string) (w : World),
     parse_path p = Ok (mkRequestPath "/secs/" (ArgStr a)) ->
     quiescent w ->
     deref process_req_default (heap w) = [] ->
     exists e w',
       do_GET p w = (Ok e, w') /\
       deref process_req_default (heap w') ≡ₚ payloads w a /\
       (Forall (fun u => error_of (outcome u.1 u.2) = None) (units w a) ->
        length (deref process_req_default (heap w')) = length (delay_urls a))) /\
  (forall (urls : list string) (w : Async.Loop),
     Async.all_answer w urls ->
     exists vs w',
       Async.gather (Async.get <$> urls) w = (Ok vs, w') /\
       length vs = length urls).
Proof.
  split; [| apply gather_answers].
  intros p a w Hp Hq Hempty. rewrite (do_GET_secs p a w Hp).
  eexists _, _. split; [reflexivity|].
  pose proof (batch_results w a Hq) as Hr. rewrite Hempty in Hr. simpl in Hr.
  split; [exact Hr|].
  intros Hall. rewrite Hr. now apply length_payloads_all.
Qed.

(** CLAIM C2, as amended.  In the threaded server, when the unit of one
    Target fails and the units of the others succeed, the handler still
    returns without raising, the thread of the failing unit ends with its
    own exception, the thread of every other unit finishes, and the
    collection gains the payloads of the N-1 units that succeeded and no
    entry for the one that failed.  In the asyncio server a Target whose
    transport fails makes [main] raise the exception of a unit of the
    batch. *)
Theorem one_failure_isolated :
  (forall (p a : string) (w : World) (k : nat) (u : nat * string) (e : Exn),
     parse_path p = Ok (mkRequestPath "/secs/" (ArgStr a)) ->
     quiescent w ->
     units w a !! k = Some u ->
     outcome u.1 u.2 = Raise e ->
     (forall j v, j <> k -> units w a !! j = Some v ->
                  error_of (outcome v.1 v.2) = None) ->
     exists el w',
       do_GET p w = (Ok el, w') /\
       (exists th, threads w' !! (length (threads w) + k) = Some th /\
                   th_state th = Died e) /\
       (forall j v, j <> k -> units w a !! j = Some v ->
          exists th, threads w' !! (length (threads w) + j) = Some th /\
                     th_state th = Finished) /\
       deref process_req_default (heap w') ≡ₚ
         deref process_req_default (heap w) ++ payloads w a /\
       length (payloads w a) = length (delay_urls a) - 1) /\
  (forall (urls : list string) (w : Async.Loop) (k : nat) (url : string)
          (e : Exn),
     urls !! k = Some url ->
     answer (upstream (length (Async.tasks w) + k) url) = Raise e ->
     exists e' w', Async.main urls w = (Raise e', w')).
Proof.
  split.
  - intros p a w k u e Hp Hq Hu He Hothers.
    rewrite (do_GET_secs p a w Hp). eexists _, _. split; [reflexivity|].
    split; [| split; [| split]].
    + destruct (batch_settled w a k u Hu) as [Hth _].
      eexists; split; [exact Hth|]. cbn. now rewrite He.
    + intros j v Hj Hv. destruct (batch_settled w a j v Hv) as [Hth _].
      eexists; split; [exact Hth|]. cbn.
      specialize (Hothers j v Hj Hv). now destruct (outcome v.1 v.2).
    + now apply batch_results.
    + unfold payloads.
      replace (length (delay_urls a)) with (length (units w a))
        by (unfold units; apply length_imap).
      rewrite <- (take_drop_middle _ _ _ Hu), omap_app, !length_app. cbn.
      rewrite He. cbn.
      assert (Hall : forall l : list (nat * string),
                Forall (fun v => error_of (outcome v.1 v.2) = None) l ->
                length (omap (fun v => value_of (outcome v.1 v.2)) l) = length l).
      { induction 1 as [|v l Hv _ IH]; [reflexivity|]. simpl.
        destruct (outcome v.1 v.2); [simpl; now f_equal | discriminate]. }
      rewrite !Hall; [lia | |].
      * apply Forall_lookup_2. intros j v Hj. rewrite lookup_drop in Hj.
        apply (Hothers (S k + j) v); [lia | exact Hj].
      * apply Forall_lookup_2. intros j v Hj.
        apply lookup_take_Some in Hj as [Hj Hlt].
        apply (Hothers j v); [lia | exact Hj].
  - intros urls w k url e Hk He.
    destruct (main_raises urls w k url e Hk He) as (e' & w' & _ & _ & Hm & _).
    eauto.
Qed.

(** CLAIM C3, as amended.  When the transport answers and the body does
    not decode, [perform_request] raises the decoder's exception and
    leaves the world as it was, so nothing is recorded for the unit; its
    thread ends with that exception.  The coroutine [get] of the asyncio
    server decodes nothing and returns normally whatever the body is. *)
Theorem decode_failure_raises (me : nat) (url : string) (res : Response)
    (e : Exn) :
  answer (upstream me url) = Ok res ->
  json_loads (text res) = Raise e ->
  (forall (results : option Ref) (w : World),
     perform_request me url results w = (Raise e, w)) /\
  (forall (i : nat) (w : World) (th : Thread),
     threads w !! i = Some th -> is_running th = true ->
     ident th = me -> th_url th = url ->
     complete i w =
     mkWorld (clock w) (heap w)
             (alter (thread_with_state (Died e)) i (threads w))) /\
  Async.get url me = (latency (upstream me url), Ok tt).
Proof.
  intros Ha Hj. split; [| split].
  - intros results w. unfold perform_request, requests_get, bind, lift.
    now rewrite Ha, Hj.
  - intros i w th Hth Hr <- <-. unfold complete. rewrite Hth, Hr.
    unfold perform_request, requests_get, bind, lift; cbn [default].
    now rewrite Ha, Hj.
  - unfold Async.get. now rewrite Ha.
Qed.


(** CLAIM C4.  In the asyncio server the coordinator over zero Targets
    returns at once with an empty outcome sequence: [gather] of no
    coroutine yields the empty list and [main] of no URL returns, both
    leaving the loop as it was, so that no task is created, the awaiting
    coroutine is not suspended and no time passes.  The threaded server
    does not: on the batch request with the empty argument string, which
    names no Target, [process_req] splits the empty string into one empty
    segment and starts one thread, for "http://httpbin.org/delay/", and
    the handler waits until that unit has ended and reports its delay as
    the elapsed time. *)
Theorem empty_batch :
  (forall w : Async.Loop,
     Async.gather (Async.get <$> []) w = (Ok [], w) /\
     Async.main [] w = (Ok tt, w)) /\
  (forall (p : string) (w : World),
     parse_path p = Ok (mkRequestPath "/secs/" (ArgStr "")) ->
     exists w',
       do_GET p w =
         (Ok (latency (upstream (length (threads w))
                                "http://httpbin.org/delay/")), w') /\
       length (threads w') = S (length (threads w)) /\
       threads w' !! length (threads w) =
         Some (mkThread (length (threads w)) "http://httpbin.org/delay/"
                 process_req_default (clock w)
                 (exit_state (outcome (length (threads w))
                                      "http://httpbin.org/delay/"))) /\
       clock w' =
         clock w + latency (upstream (length (threads w))
                                     "http://httpbin.org/delay/")).
Proof.
  split; [intros w; split; reflexivity |].
  intros p w Hp. rewrite (do_GET_secs p "" w Hp). eexists. 
  assert (Hu : units w "" !! 0
               = Some (length (threads w), "http://httpbin.org/delay/"%string))
    by (cbn; now rewrite Nat.add_0_r).
  assert (Hd : max_list (delays w "")
               = latency (upstream (length (threads w))
                                   "http://httpbin.org/delay/"))
    by (cbn; rewrite Nat.add_0_r; lia).
  split; [| split; [| split]].
  - rewrite batch_clock, Hd. do 2 f_equal. lia.
  - rewrite batch_length. cbn. lia.
  - destruct (batch_settled w "" 0 _ Hu) as [Hth _].
    rewrite Nat.add_0_r in Hth. exact Hth.
  - now rewrite batch_clock, Hd.
Qed.

Lemma asyncio_run_main (urls : list string) (w : Async.Loop) :
  Async.all_answer w urls ->
  exists w',
    Async.asyncio_run (Async.main urls) w = (Ok tt, w') /\
    Async.now w' = Async.now w + max_list (Async.latencies w urls).
Proof.
  intros Hall. destruct (main_answers urls w Hall) as (w1 & Hm & Hnow & _).
  exists (Async.cancel_pending w1). unfold Async.asyncio_run. rewrite Hm.
  split; [reflexivity | exact Hnow].
Qed.

(** The handler of a batch request reports the largest delay. *)
Lemma do_GET_elapsed (p a : string) (w : World) :
  parse_path p = Ok (mkRequestPath "/secs/" (ArgStr a)) ->
  (do_GET p w).1 = Ok (max_list (delays w a)).
Proof.
  intros Hp. rewrite (do_GET_secs p a w Hp). cbn [fst].
  rewrite batch_clock. f_equal. lia.
Qed.

Lemma max_list_le_sum (l : list nat) : max_list l <= sum_list l.
Proof. induction l as [|d l IH]; simpl; lia. Qed.

Lemma max_list_lt_sum (l : list nat) :
  2 <= length l -> Forall (fun d => 0 < d) l -> max_list l < sum_list l.
Proof.
  intros Hlen Hpos.
  destruct Hpos as [|d l Hd Hl]; [simpl in Hlen; lia|].
  destruct Hl as [|d' l Hd' Hl]; [simpl in Hlen; lia|].
  pose proof (max_list_le_sum l). simpl. lia.
Qed.

(** CLAIM C5, as amended.  Neither server takes an overall timeout, so a
    run never ends because of a deadline and no unit is ever marked as
    timed out.  The handler of the threaded server never fails: it
    returns, and not before each unit of the batch has ended by itself,
    the thread of each unit in the state of its own Outcome (finished, or
    ended by its own exception).  In the asyncio server the run returns,
    when the transport answers every Target, only when the slowest unit
    has ended; and the only way in which it fails is by raising the
    transport exception of a unit of the batch, at the instant that unit
    fails, upon which every unit that needs longer is cancelled. *)
Theorem no_overall_timeout :
  (forall (p : string) (w : World),
     exists e w',
       do_GET p w = (Ok e, w') /\
       forall a k u,
         parse_path p = Ok (mkRequestPath "/secs/" (ArgStr a)) ->
         units w a !! k = Some u ->
         threads w' !! (length (threads w) + k) =
           Some (mkThread u.1 u.2 process_req_default (clock w)
                          (exit_state (outcome u.1 u.2))) /\
         clock w + latency (upstream u.1 u.2) <= clock w') /\
  (forall (urls : list string) (w : Async.Loop),
     Async.all_answer w urls ->
     exists w',
       Async.asyncio_run (Async.main urls) w = (Ok tt, w') /\
       Async.now w' = Async.now w + max_list (Async.latencies w urls)) /\
  (forall (urls : list string) (w w' : Async.Loop) (e : Exn),
     Async.asyncio_run (Async.main urls) w = (Raise e, w') ->
     exists k url,
       urls !! k = Some url /\
       answer (upstream (length (Async.tasks w) + k) url) = Raise e /\
       Async.now w' =
         Async.now w + latency (upstream (length (Async.tasks w) + k) url) /\
       forall j url',
         urls !! j = Some url' ->
         latency (upstream (length (Async.tasks w) + k) url)
         < latency (upstream (length (Async.tasks w) + j) url') ->
         exists t,
           Async.tasks w' !! (length (Async.tasks w) + j) = Some t /\
           Async.t_state t = Async.Cancelled).
Proof.
  split; [| split].
  - intros p w. destruct (parse_path_cases p) as [[a Hp] | [Hp Hne]].
    + rewrite (do_GET_secs p a w Hp). eexists _, _. split; [reflexivity|].
      intros a' k u Hp' Hu. rewrite Hp in Hp'. injection Hp' as <-.
      exact (batch_settled w a k u Hu).
    + rewrite (do_GET_other p w Hp Hne). eexists _, _. split; [reflexivity|].
      intros a k u Hp'. rewrite Hp in Hp'. discriminate.
  - apply asyncio_run_main.
  - intros urls w w' e Hrun. unfold Async.asyncio_run in Hrun.
    destruct (Async.main urls w) as [r w1] eqn:Hm.
    injection Hrun as -> <-.
    destruct (main_raise_unit urls w w1 e Hm)
      as (d & -> & Hnow & (k & url & Hk & He & Hd) & _).
    exists k, url. split; [exact Hk|]. split; [exact He|]. split.
    + rewrite Hd. exact Hnow.
    + intros j url' Hj Hlt. rewrite Hd in Hlt.
      unfold Async.cancel_pending; cbn [Async.tasks].
      rewrite list_lookup_fmap, (child_after_failure urls w d j url' Hj).
      rewrite (proj2 (Nat.leb_gt _ _) Hlt). cbn. eauto.
Qed.

(** CLAIM C6, as amended.  The handler of the threaded server always
    returns, and when it does every thread it has started has left
    [Running], at an instant no later than the clock shows: this holds
    for every request, every world and every upstream, hence for every
    order in which the units complete.  In the asyncio server, when
    [main] returns every task it has gathered is done, no later than the
    clock of the loop shows; but when the transport of a unit fails,
    [main] hands control back, by raising, while every unit that needs
    longer than the instant of that failure is still pending.  Whether
    [main] returns or raises, [asyncio.run] hands control back with no
    task left pending. *)
Theorem barrier :
  (forall (p : string) (w : World),
     exists e w',
       do_GET p w = (Ok e, w') /\
       forall i th, length (threads w) <= i -> threads w' !! i = Some th ->
         is_running th = false /\ finish_time th <= clock w') /\
  (forall (urls : list string) (w w' : Async.Loop),
     Async.main urls w = (Ok tt, w') ->
     forall i k, length (Async.tasks w) <= i -> Async.tasks w' !! i = Some k ->
       Async.t_state k = Async.Done /\ Async.t_finish k <= Async.now w') /\
  (forall (urls : list string) (w : Async.Loop) (k : nat) (url : string)
          (e : Exn),
     urls !! k = Some url ->
     answer (upstream (length (Async.tasks w) + k) url) = Raise e ->
     exists e' w',
       Async.main urls w = (Raise e', w') /\
       forall j url',
         urls !! j = Some url' ->
         Async.now w' - Async.now w
         < latency (upstream (length (Async.tasks w) + j) url') ->
         exists t,
           Async.tasks w' !! (length (Async.tasks w) + j) = Some t /\
           Async.is_pending t = true) /\
  (forall (urls : list string) (w : Async.Loop) (i : nat) (k : Async.Task),
     Async.tasks (Async.asyncio_run (Async.main urls) w).2 !! i = Some k ->
     Async.is_pending k = false).
Proof.
  split; [| split; [| split]].
  - intros p w. destruct (parse_path_cases p) as [[a Hp] | [Hp Hne]].
    + rewrite (do_GET_secs p a w Hp). eexists _, _. split; [reflexivity|].
      intros i th Hi Hth.
      pose proof (lookup_lt_Some _ _ _ Hth) as Hlt. rewrite batch_length in Hlt.
      destruct (lookup_lt_is_Some_2 (units w a) (i - length (threads w))) as [u Hu];
        [lia|].
      destruct (batch_settled w a _ u Hu) as [Hs Hfin].
      replace (length (threads w) + (i - length (threads w))) with i in Hs by lia.
      rewrite Hth in Hs. injection Hs as ->. split.
      * unfold is_running; cbn. now destruct (outcome u.1 u.2).
      * exact Hfin.
    + rewrite (do_GET_other p w Hp Hne). eexists _, _. split; [reflexivity|].
      intros i th Hi Hth. apply lookup_lt_Some in Hth. lia.
  - intros urls w w' Hm i k Hi Hk.
    pose proof (main_returns urls w w' Hm) as Hall.
    destruct (main_answers urls w Hall) as (w2 & Hm2 & Hnow & Hlen & Hkids).
    rewrite Hm in Hm2. injection Hm2 as <-.
    pose proof (lookup_lt_Some _ _ _ Hk) as Hlt. rewrite Hlen in Hlt.
    destruct (lookup_lt_is_Some_2 urls (i - length (Async.tasks w))) as [url Hurl];
      [lia|].
    pose proof (Hkids _ url Hurl) as Hc.
    replace (length (Async.tasks w) + (i - length (Async.tasks w))) with i in Hc by lia.
    rewrite Hk in Hc. injection Hc as ->. split; [reflexivity|].
    unfold Async.t_finish; cbn. rewrite Hnow.
    assert (Hle : latency (upstream i url) <= max_list (Async.latencies w urls)).
    { apply max_list_elem_of_le, list_elem_of_lookup.
      exists (i - length (Async.tasks w)). unfold Async.latencies.
      rewrite list_lookup_imap, Hurl. cbn. do 3 f_equal. lia. }
    lia.
  - intros urls w k url e Hk He.
    destruct (main_raises urls w k url e Hk He) as (e' & w' & _ & _ & Hm & _).
    exists e', w'. split; [exact Hm|]. intros j url' Hj Hlt.
    destruct (main_raise_unit urls w w' e' Hm) as (d & -> & Hnow & _).
    rewrite Hnow in Hlt.
    rewrite (child_after_failure urls w d j url' Hj).
    rewrite (proj2 (Nat.leb_gt _ _)) by lia. eauto.
  - intros urls w i k. apply asyncio_run_settles.
Qed.

(** CLAIM C7.  The elapsed time that the handler of the threaded server
    reports for a batch is the largest of the delays of its Targets, and
    so is the time that running [main] takes in the asyncio server, and
    the delay that [get_delays] reports, when no unit fails: the units
    overlap.  With two or more Targets of positive delay that is less
    than the sum of the delays, which is what running the units one after
    the other would take. *)
Theorem elapsed_is_max :
  (forall (p a : string) (w : World),
     parse_path p = Ok (mkRequestPath "/secs/" (ArgStr a)) ->
     (do_GET p w).1 = Ok (max_list (delays w a)) /\
     (2 <= length (delays w a) -> Forall (fun d => 0 < d) (delays w a) ->
      max_list (delays w a) < sum_list (delays w a))) /\
  (forall (urls : list string) (w : Async.Loop),
     Async.all_answer w urls ->
     (exists w',
        Async.asyncio_run (Async.main urls) w = (Ok tt, w') /\
        Async.now w' - Async.now w = max_list (Async.latencies w urls)) /\
     (2 <= length urls -> Forall (fun d => 0 < d) (Async.latencies w urls) ->
      max_list (Async.latencies w urls) < sum_list (Async.latencies w urls))) /\
  (forall w : Async.Loop,
     Async.all_answer w Async.DELAY_URLS ->
     (Async.get_delays w).1 =
     Ok (max_list (Async.latencies w Async.DELAY_URLS))).
Proof.
  split; [| split].
  - intros p a w Hp. split; [now apply do_GET_elapsed | apply max_list_lt_sum].
  - intros urls w Hall. split.
    + destruct (asyncio_run_main urls w Hall) as (w' & Hr & Hnow).
      exists w'. split; [exact Hr | lia].
    + intros Hlen. apply max_list_lt_sum.
      unfold Async.latencies. now rewrite length_imap.
  - intros w Hall.
    destruct (asyncio_run_main _ w Hall) as (w' & Hr & Hnow).
    unfold Async.get_delays, Async.abind, Async.time_time. rewrite Hr.
    unfold Async.aret; cbn [fst]. rewrite Hnow. f_equal. lia.
Qed.

End Claims.

(** ** Worked examples on a concrete upstream *)

Section Worked.

Import Threaded.

Local Open Scope nat_scope.
Local Open Scope list_scope.

Local Existing Instance Demo.httpbin.

(** The delays 2 and 3 of the specification's test: 3 ticks elapse, not
    5. *)
Example do_GET_two_three : (do_GET "/secs/2,3" boot).1 = Ok 3.
Proof. reflexivity. Qed.

(** The payloads arrive in the order in which the units end. *)
Example do_GET_completion_order :
  deref process_req_default (heap (do_GET "/secs/3,1,2" boot).2)
  = ["{1}"; "{2}"; "{3}"]%string.
Proof. reflexivity. Qed.

(** C1: a run over two Targets of which one is refused leaves one entry,
    not two, in the collection. *)
Lemma count_invariant_counterexample :
  length (delay_urls "1,x") = 2 /\
  deref process_req_default (heap (do_GET "/secs/1,x" boot).2) = ["{1}"%string] /\
  length (deref process_req_default (heap (do_GET "/secs/1,x" boot).2))
  <> length (delay_urls "1,x").
Proof.
  split; [reflexivity | split; [reflexivity |]].
  intros E. vm_compute in E. discriminate.
Qed.

Lemma run_collects_witness :
  parse_path "/secs/3,1,2" = Ok (mkRequestPath "/secs/" (ArgStr "3,1,2")) /\
  quiescent boot /\
  deref process_req_default (heap boot) = [] /\
  exists e w',
    do_GET "/secs/3,1,2" boot = (Ok e, w') /\
    deref process_req_default (heap w') ≡ₚ payloads boot "3,1,2" /\
    (Forall (fun u => error_of (outcome u.1 u.2) = None) (units boot "3,1,2") ->
     length (deref process_req_default (heap w')) = length (delay_urls "3,1,2")).
Proof.
  split; [reflexivity|]. split; [constructor|]. split; [reflexivity|].
  apply (proj1 run_collects "/secs/3,1,2"%string "3,1,2"%string boot);
    [reflexivity | constructor | reflexivity].
Defined.

(** C2: with one of three Targets refused the handler returns, two
    entries are collected instead of three, none of them a Failure, and
    the thread of the refused unit is dead; [main] of the asyncio server
    raises, and [asyncio.run] cancels the sibling that was still
    running. *)
Lemma one_failure_counterexample :
  length (delay_urls "3,x,2") = 3 /\
  (do_GET "/secs/3,x,2" boot).1 = Ok 3 /\
  deref process_req_default (heap (do_GET "/secs/3,x,2" boot).2)
  = ["{2}"; "{3}"]%string /\
  th_state <$> threads (do_GET "/secs/3,x,2" boot).2
  = [Finished; Died ConnectionError; Finished] /\
  (Async.main ["http://httpbin.org/delay/3"; "http://httpbin.org/delay/x"]%string
              Async.idle).1 = Raise ConnectionError /\
  Async.t_state <$>
    Async.tasks
      (Async.asyncio_run
         (Async.main ["http://httpbin.org/delay/3"; "http://httpbin.org/delay/x"]%string)
         Async.idle).2
  = [Async.Cancelled; Async.Failed ConnectionError].
Proof. repeat (split; [reflexivity|]). reflexivity. Qed.

Lemma one_failure_isolated_witness :
  exists el w',
    do_GET "/secs/3,x,2" boot = (Ok el, w') /\
    (exists th, threads w' !! 1 = Some th /\ th_state th = Died ConnectionError) /\
    length (payloads boot "3,x,2") = 2.
Proof.
  destruct (proj1 one_failure_isolated "/secs/3,x,2"%string "3,x,2"%string boot 1
                  (1, "http://httpbin.org/delay/x"%string) ConnectionError)
    as (el & w' & Hdo & Hdied & _ & _ & Hlen).
  - reflexivity.
  - constructor.
  - reflexivity.
  - reflexivity.
  - intros [|[|[|j]]] v Hj Hv; try congruence;
      cbv in Hv; try discriminate; injection Hv as <-; reflexivity.
  - exists el, w'. split; [exact Hdo|]. split; [exact Hdied | exact Hlen].
Defined.

(** C3: a body that does not decode makes [perform_request] raise; the
    handler records nothing for the unit, and [get] returns normally. *)
Lemma decode_failure_counterexample :
  perform_request 0 "http://httpbin.org/delay/" (Some process_req_default) boot
  = (Raise JSONDecodeError, boot) /\
  deref process_req_default (heap (do_GET "/secs/" boot).2) = [] /\
  th_state <$> threads (do_GET "/secs/" boot).2 = [Died JSONDecodeError] /\
  Async.get "http://httpbin.org/delay/" 0 = (0, Ok tt).
Proof. repeat (split; [reflexivity|]). reflexivity. Qed.

Lemma decode_failure_raises_witness :
  answer (upstream 0 "http://httpbin.org/delay/"%string)
  = Ok (mkResponse "<html>") /\
  json_loads "<html>"%string = Raise JSONDecodeError /\
  perform_request 0 "http://httpbin.org/delay/" None boot
  = (Raise JSONDecodeError, boot).
Proof.
  assert (Ha : answer (upstream 0 "http://httpbin.org/delay/"%string)
               = Ok (mkResponse "<html>")) by reflexivity.
  assert (Hj : json_loads (text (mkResponse "<html>")) = Raise JSONDecodeError)
    by reflexivity.
  split; [exact Ha|]. split; [exact Hj|].
  exact (proj1 (decode_failure_raises 0 _ _ _ Ha Hj) None boot).
Defined.

(** C4: the request "/secs/" names no Target, yet it starts one thread,
    for "http://httpbin.org/delay/", and the handler waits for it.
    Against an upstream that refuses every connection after two ticks it
    returns after two ticks, the thread having died; against the
    demonstration upstream the thread dies at once on the page it cannot
    decode. *)
Example do_GET_empty_args :
  parse_path "/secs/" = Ok (mkRequestPath "/secs/" (ArgStr "")) /\
  delay_urls "" = ["http://httpbin.org/delay/"%string] /\
  (do_GET (H := Demo.outage) "/secs/" boot).1 = Ok 2 /\
  threads (do_GET (H := Demo.outage) "/secs/" boot).2
  = [mkThread 0 "http://httpbin.org/delay/" process_req_default 0
              (Died ConnectionError)] /\
  do_GET (H := Demo.outage) "/secs/" boot <> (Ok 0, boot) /\
  threads (do_GET "/secs/" boot).2
  = [mkThread 0 "http://httpbin.org/delay/" process_req_default 0
              (Died JSONDecodeError)].
Proof.
  split; [reflexivity|]. split; [reflexivity|]. split; [reflexivity|].
  split; [reflexivity|]. split; [| reflexivity].
  intros E. vm_compute in E. discriminate.
Qed.

Lemma empty_batch_witness :
  parse_path "/secs/" = Ok (mkRequestPath "/secs/" (ArgStr "")) /\
  exists w',
    do_GET (H := Demo.outage) "/secs/" boot = (Ok 2, w') /\
    length (threads w') = 1.
Proof.
  assert (Hp : parse_path "/secs/" = Ok (mkRequestPath "/secs/" (ArgStr "")))
    by reflexivity.
  split; [exact Hp|].
  destruct (proj2 (empty_batch (H := Demo.outage)) "/secs/"%string boot Hp)
    as (w' & Hdo & Hlen & _).
  exists w'. split; [exact Hdo | exact Hlen].
Defined.

(** C5: the run of the asyncio server fails with no timeout at all.
    With a Target that answers after three ticks and one whose connection
    is refused after one, [main] raises the transport exception after one
    tick and [asyncio.run] hands it on, the slow unit being cancelled, not
    timed out; and [get_delays] raises in the same way when the upstream
    is down. *)
Lemma run_failure_counterexample :
  Async.asyncio_run
    (Async.main ["http://httpbin.org/delay/3"; "http://httpbin.org/delay/x"]%string)
    Async.idle
  = (Raise ConnectionError,
     Async.mkLoop 1 [Async.mkTask 0 3 None Async.Cancelled;
                     Async.mkTask 0 1 (Some ConnectionError)
                                  (Async.Failed ConnectionError)] 1) /\
  (Async.get_delays (H := Demo.outage) Async.idle).1 = Raise ConnectionError.
Proof. split; reflexivity. Qed.

Lemma no_overall_timeout_witness :
  Async.asyncio_run
    (Async.main ["http://httpbin.org/delay/3"; "http://httpbin.org/delay/x"]%string)
    Async.idle
  = (Raise ConnectionError,
     Async.mkLoop 1 [Async.mkTask 0 3 None Async.Cancelled;
                     Async.mkTask 0 1 (Some ConnectionError)
                                  (Async.Failed ConnectionError)] 1) /\
  exists k url,
    ["http://httpbin.org/delay/3"; "http://httpbin.org/delay/x"]%string !! k
    = Some url /\
    answer (upstream (length (Async.tasks Async.idle) + k) url)
    = Raise ConnectionError.
Proof.
  assert (Hr : Async.asyncio_run
                 (Async.main
                    ["http://httpbin.org/delay/3"; "http://httpbin.org/delay/x"]%string)
                 Async.idle
               = (Raise ConnectionError,
                  Async.mkLoop 1 [Async.mkTask 0 3 None Async.Cancelled;
                                  Async.mkTask 0 1 (Some ConnectionError)
                                               (Async.Failed ConnectionError)] 1))
    by reflexivity.
  split; [exact Hr|].
  destruct (proj2 (proj2 no_overall_timeout) _ _ _ _ Hr)
    as (k & url & Hk & He & _).
  exists k, url. split; [exact Hk | exact He].
Defined.

(** C6: [main] hands control back while a unit is pending.  With a Target
    that answers after three ticks and one whose connection is refused
    after one, [main] raises after one tick, the slow unit still
    pending. *)
Lemma barrier_counterexample :
  Async.main ["http://httpbin.org/delay/3"; "http://httpbin.org/delay/x"]%string
             Async.idle
  = (Raise ConnectionError,
     Async.mkLoop 1 [Async.mkTask 0 3 None Async.Pending;
                     Async.mkTask 0 1 (Some ConnectionError)
                                  (Async.Failed ConnectionError)] 1) /\
  Async.is_pending (Async.mkTask 0 3 None Async.Pending) = true /\
  1 < Async.t_finish (Async.mkTask 0 3 None Async.Pending).
Proof. split; [reflexivity | split; [reflexivity | cbn; lia]]. Qed.

Lemma barrier_witness :
  Async.main ["http://httpbin.org/delay/5"; "http://httpbin.org/delay/3"]%string
             Async.idle
  = (Ok tt,
     Async.mkLoop 5 [Async.mkTask 0 5 None Async.Done;
                     Async.mkTask 0 3 None Async.Done] 1) /\
  Async.t_state (Async.mkTask 0 3 None Async.Done) = Async.Done /\
  Async.t_finish (Async.mkTask 0 3 None Async.Done) <= 5.
Proof.
  assert (Hm : Async.main
                 ["http://httpbin.org/delay/5"; "http://httpbin.org/delay/3"]%string
                 Async.idle
               = (Ok tt,
                  Async.mkLoop 5 [Async.mkTask 0 5 None Async.Done;
                                  Async.mkTask 0 3 None Async.Done] 1))
    by reflexivity.
  split; [exact Hm|].
  apply (proj1 (proj2 barrier) _ _ _ Hm 1 (Async.mkTask 0 3 None Async.Done));
    [repeat constructor | reflexivity].
Defined.

Lemma elapsed_is_max_witness :
  parse_path "/secs/2,3" = Ok (mkRequestPath "/secs/" (ArgStr "2,3")) /\
  (do_GET "/secs/2,3" boot).1 = Ok (max_list (delays boot "2,3")) /\
  max_list (delays boot "2,3") = 3 /\
  sum_list (delays boot "2,3") = 5.
Proof.
  assert (Hp : parse_path "/secs/2,3" = Ok (mkRequestPath "/secs/" (ArgStr "2,3")))
    by reflexivity.
  split; [exact Hp|].
  split; [exact (proj1 (proj1 elapsed_is_max "/secs/2,3"%string "2,3"%string boot Hp))|].
  split; reflexivity.
Defined.

(** C8: two requests one after the other.  The collection that the
    second run appends to still holds the payload of the first. *)
Lemma results_carry_over :
  deref process_req_default (heap (do_GET "/secs/1" boot).2) = ["{1}"%string] /\
  deref process_req_default
        (heap (do_GET "/secs/2,3" (do_GET "/secs/1" boot).2).2)
  = ["{1}"; "{2}"; "{3}"]%string /\
  payloads (do_GET "/secs/1" boot).2 "2,3" = ["{2}"; "{3}"]%string.
Proof. repeat (split; [reflexivity|]). reflexivity. Qed.

End Worked.

(** ** Further properties of the threaded server *)

Section MoreThreaded.

Import Threaded.
Context `{Network}.

Local Open Scope nat_scope.
Local Open Scope list_scope.

Lemma str_app_assoc (a b c : string) :
  ((a ++ b) ++ c)%string = (a ++ b ++ c)%string.
Proof. induction a as [|x a IH]; simpl; [reflexivity | now rewrite IH]. Qed.

(** PROPERTY X1.  A request path that ends in "/secs/" followed by an argument string
    free of "/" is parsed into the batch request with just that argument
    string, whatever precedes "/secs/". *)
Theorem parse_path_build (pre a : string) :
  ~ Str.occurs "/" a ->
  parse_path (pre ++ "/secs/" ++ a) = Ok (mkRequestPath "/secs/" (ArgStr a)).
Proof.
  intros Hfree.
  assert (Hocc : Str.occurs "/secs/" (pre ++ "/secs/" ++ a)) by (now exists pre, a).
  destruct (parse_path_batch _ Hocc) as (a' & Ha' & ->).
  do 3 f_equal. apply (after_final_unique slash (pre ++ "/secs/" ++ a)); [exact Ha'|].
  split; [| exact Hfree].
  exists (pre ++ "/secs")%string. now rewrite str_app_assoc.
Qed.

(** PROPERTY X2.  [process_req] handed the request that [parse_path] makes of a path
    without "/secs/" raises [AttributeError] and starts no thread: the
    list that [args] defaults to has no [split].  The test of the path
    in [do_GET] keeps the handler from that call. *)
Theorem process_req_plain (p : string) (results : option Ref) (w : World) :
  ~ Str.occurs "/secs/" p ->
  exists req,
    parse_path p = Ok req /\
    process_req req results w = (Raise AttributeError, w) /\
    do_GET p w = (Ok 0, w).
Proof.
  intros Hocc. exists (mkRequestPath p (ArgList [])).
  split; [now apply parse_path_plain|]. split; [reflexivity|].
  apply do_GET_other; [now apply parse_path_plain|].
  apply String.eqb_neq. intros ->. apply Hocc. now exists ""%string, ""%string.
Qed.

Lemma length_split (sep : ascii) (s : string) :
  length (Str.split sep s) = S (Str.count sep s).
Proof.
  induction s as [|c s IH]; [reflexivity|]. simpl.
  destruct (Ascii.eqb c sep); simpl; [now rewrite IH|].
  destruct (Str.split sep s); simpl in *; [discriminate | exact IH].
Qed.

(** PROPERTY X3.  A batch request starts one thread more than there are commas in its
    argument string, and starts them all: nothing bounds their number. *)
Theorem do_GET_thread_count (p a : string) (w : World) :
  parse_path p = Ok (mkRequestPath "/secs/" (ArgStr a)) ->
  length (threads (do_GET p w).2)
  = length (threads w) + S (Str.count comma a).
Proof.
  intros Hp. rewrite (do_GET_secs p a w Hp). cbn [snd].
  now rewrite batch_length, length_units, length_split.
Qed.

(** *** The list objects only grow *)

Lemma grown_refl (r : Ref) (w : World) : grown r w w.
Proof. exists []. now rewrite app_nil_r. Qed.

Lemma grown_trans (r : Ref) (w1 w2 w3 : World) :
  grown r w1 w2 -> grown r w2 w3 -> grown r w1 w3.
Proof.
  intros [l1 H1] [l2 H2]. exists (l1 ++ l2). now rewrite H2, H1, app_assoc.
Qed.

Lemma complete_grown (r : Ref) (i : nat) (w : World) : grown r w (complete i w).
Proof.
  rewrite complete_eq. destruct (threads w !! i) as [th|]; [| apply grown_refl].
  destruct (is_running th); [| apply grown_refl].
  eexists. cbn [heap]. apply deref_grow.
Qed.

Lemma completes_grown (r : Ref) (ids : list nat) (w : World) :
  grown r w (foldl (fun w i => complete i w) w ids).
Proof.
  revert w; induction ids as [|i ids IH]; intros w; simpl; [apply grown_refl|].
  eapply grown_trans; [apply complete_grown | apply IH].
Qed.

Lemma join_grown (r : Ref) (tid : nat) (w : World) :
  grown r w (Thread_join tid w).2.
Proof.
  unfold Thread_join. destruct (threads w !! tid) as [th|]; [| apply grown_refl].
  destruct (is_running th); [| apply grown_refl].
  apply (completes_grown r (schedule (finish_time th) w) w).
Qed.

Lemma join_all_grown (r : Ref) (tids : list nat) (w : World) :
  grown r w (join_all tids w).
Proof.
  revert w; induction tids as [|tid tids IH]; intros w; [apply grown_refl|].
  eapply grown_trans; [apply (join_grown r tid) | apply IH].
Qed.

(** PROPERTY X4.  Whatever the request and whatever else is in flight, the handler
    only appends to the list objects: each of them holds afterwards what
    it held before, in the same order, followed by the new entries. *)
Theorem do_GET_appends_only (p : string) (w : World) (r : Ref) :
  exists l, deref r (heap (do_GET p w).2) = deref r (heap w) ++ l.
Proof.
  destruct (parse_path_cases p) as [[a Hp] | [Hp Hne]].
  - rewrite (do_GET_secs p a w Hp). cbn [snd].
    apply (join_all_grown r _ (launch w a)).
  - rewrite (do_GET_other p w Hp Hne). apply grown_refl.
Qed.

(** PROPERTY X5.  With no other unit in flight, a request leaves the default lists of
    [perform_request] and of [launch_request_thread] as they were, and
    every thread it starts appends to the default list of [process_req]:
    the list is handed down from [process_req] through
    [launch_request_thread] to [perform_request]. *)
Theorem do_GET_one_list (p : string) (w : World) :
  quiescent w ->
  (forall r, r <> process_req_default ->
             deref r (heap (do_GET p w).2) = deref r (heap w)) /\
  (forall i th, length (threads w) <= i ->
                threads (do_GET p w).2 !! i = Some th ->
                th_results th = process_req_default).
Proof.
  intros Hq. destruct (parse_path_cases p) as [[a Hp] | [Hp Hne]].
  - rewrite (do_GET_secs p a w Hp). cbn [snd]. split.
    + intros r Hr.
      destruct (join_all_grown r (seq (length (threads w)) (length (units w a)))
                               (launch w a)) as [l Hl].
      fold (batch_end w a) in Hl. cbn [launch heap] in Hl.
      pose proof (batch_holdings w a r) as Hh. unfold holdings in Hh.
      rewrite (pending_idle _ _ (batch_quiescent w a Hq)) in Hh.
      rewrite (pending_idle _ _ Hq) in Hh.
      rewrite decide_False in Hh by exact Hr. rewrite !app_nil_r in Hh.
      apply Permutation_length in Hh. rewrite Hl, length_app in Hh.
      destruct l; [now rewrite app_nil_r in Hl | simpl in Hh; lia].
    + intros i th Hi Hth.
      pose proof (lookup_lt_Some _ _ _ Hth) as Hlt. rewrite batch_length in Hlt.
      destruct (lookup_lt_is_Some_2 (units w a) (i - length (threads w)))
        as [u Hu]; [lia|].
      destruct (batch_settled w a _ u Hu) as [Hs _].
      replace (length (threads w) + (i - length (threads w))) with i in Hs by lia.
      rewrite Hth in Hs. now injection Hs as ->.
  - rewrite (do_GET_other p w Hp Hne). cbn [snd]. split; [reflexivity|].
    intros i th Hi Hth. apply lookup_lt_Some in Hth. lia.
Qed.

(** PROPERTY X6.  With no unit in flight before a request there is none in flight
    after it, and the threads of earlier requests are as they were: the
    handler leaks no running thread and restarts none. *)
Theorem do_GET_quiescent (p : string) (w : World) :
  quiescent w ->
  quiescent (do_GET p w).2 /\
  (forall i th, threads w !! i = Some th ->
                threads (do_GET p w).2 !! i = Some th).
Proof.
  intros Hq. destruct (parse_path_cases p) as [[a Hp] | [Hp Hne]].
  - rewrite (do_GET_secs p a w Hp). cbn [snd].
    split; [now apply batch_quiescent|].
    intros i th Hth. destruct (batch_old w a i th Hth) as (th' & Hth' & Hev).
    rewrite Hth'. f_equal. destruct Hev as [->| ->]; [reflexivity|].
    apply settled_id. exact (Forall_lookup_1 _ _ _ _ Hq Hth).
  - rewrite (do_GET_other p w Hp Hne). cbn [snd]. now split.
Qed.


(** *** The order in which the threads complete *)

Lemma insert_by_app_l (key : nat -> nat) (x : nat) (l1 l2 : list nat) :
  Forall (fun j => key x <= key j) l2 ->
  insert_by key x (l1 ++ l2) = insert_by key x l1 ++ l2.
Proof.
  intros Hl2. induction l1 as [|j l1 IH]; simpl.
  - destruct Hl2 as [|j l2 Hj Hl2]; [reflexivity|]; simpl.
    now rewrite (proj2 (Nat.leb_le _ _) Hj).
  - destruct (key x <=? key j); [reflexivity | now rewrite IH].
Qed.

Lemma insert_by_app_r (key : nat -> nat) (x : nat) (l1 l2 : list nat) :
  Forall (fun j => key j < key x) l1 ->
  insert_by key x (l1 ++ l2) = l1 ++ insert_by key x l2.
Proof.
  induction 1 as [|j l1 Hj _ IH]; simpl; [reflexivity|].
  rewrite (proj2 (Nat.leb_gt _ _) Hj). now rewrite IH.
Qed.

Lemma insert_by_ext (key1 key2 : nat -> nat) (x : nat) (l : list nat) :
  key1 x = key2 x -> Forall (fun j => key1 j = key2 j) l ->
  insert_by key1 x l = insert_by key2 x l.
Proof.
  intros Hx. induction 1 as [|j l Hj _ IH]; simpl; [reflexivity|].
  now rewrite Hx, Hj, IH.
Qed.

Lemma sort_by_perm (key : nat -> nat) (l : list nat) :
  foldr (insert_by key) [] l ≡ₚ l.
Proof.
  induction l as [|i l IH]; simpl; [reflexivity|].
  now rewrite insert_by_perm, IH.
Qed.

Lemma sort_by_ext (key1 key2 : nat -> nat) (l : list nat) :
  Forall (fun j => key1 j = key2 j) l ->
  foldr (insert_by key1) [] l = foldr (insert_by key2) [] l.
Proof.
  induction 1 as [|j l Hj Hl IH]; simpl; [reflexivity|].
  rewrite IH. apply insert_by_ext; [exact Hj|].
  now rewrite sort_by_perm.
Qed.

Lemma insert_by_sorted (key : nat -> nat) (x : nat) (l : list nat) :
  StronglySorted (fun i j => key i <= key j) l ->
  StronglySorted (fun i j => key i <= key j) (insert_by key x l).
Proof.
  induction 1 as [|j l Hl IH Hj]; simpl; [repeat constructor|].
  destruct (Nat.leb_spec (key x) (key j)) as [Hle|Hgt].
  - constructor; [now constructor|].
    constructor; [exact Hle|].
    eapply Forall_impl; [exact Hj|]. intros y Hy; simpl in *. lia.
  - constructor; [exact IH|].
    rewrite insert_by_perm. constructor; [lia | exact Hj].
Qed.

Lemma sort_by_sorted (key : nat -> nat) (l : list nat) :
  StronglySorted (fun i j => key i <= key j) (foldr (insert_by key) [] l).
Proof.
  induction l as [|i l IH]; simpl; [constructor | now apply insert_by_sorted].
Qed.

(** Sorting what passes one of two tests, when everything that passes
    the first has a smaller key than anything that passes the second. *)
Lemma sort_by_split (key : nat -> nat) (A B : nat -> bool) (l : list nat) :
  (forall x y, x ∈ l -> y ∈ l -> A x = true -> B y = true -> key x < key y) ->
  foldr (insert_by key) [] (List.filter (fun i => A i || B i) l) =
  foldr (insert_by key) [] (List.filter A l)
  ++ foldr (insert_by key) [] (List.filter B l).
Proof.
  induction l as [|x l IH]; intros Hsep; [reflexivity|].
  assert (IH' := IH (fun a b Ha Hb =>
            Hsep a b (list_elem_of_further _ _ _ Ha) (list_elem_of_further _ _ _ Hb))).
  clear IH. simpl.
  destruct (A x) eqn:HA, (B x) eqn:HB; simpl.
  - pose proof (Hsep x x (list_elem_of_here _ _) (list_elem_of_here _ _) HA HB). lia.
  - rewrite IH'. apply insert_by_app_l.
    rewrite sort_by_perm. apply Forall_forall. intros y Hy.
    apply list_elem_of_In, filter_In in Hy as [Hy HBy].
    apply list_elem_of_In in Hy.
    pose proof (Hsep x y (list_elem_of_here _ _) (list_elem_of_further _ _ _ Hy) HA HBy).
    lia.
  - rewrite IH'. apply insert_by_app_r.
    rewrite sort_by_perm. apply Forall_forall. intros y Hy.
    apply list_elem_of_In, filter_In in Hy as [Hy HAy].
    apply list_elem_of_In in Hy.
    exact (Hsep y x (list_elem_of_further _ _ _ Hy) (list_elem_of_here _ _) HAy HB).
  - exact IH'.
Qed.


Lemma complete_with_clock (c i : nat) (w : World) :
  complete i (with_clock c w) = with_clock c (complete i w).
Proof.
  rewrite !complete_eq. unfold with_clock; cbn [threads heap clock].
  destruct (threads w !! i) as [th|]; [| reflexivity].
  now destruct (is_running th).
Qed.

Lemma completes_with_clock (c : nat) (ids : list nat) (w : World) :
  foldl (fun w i => complete i w) (with_clock c w) ids =
  with_clock c (foldl (fun w i => complete i w) w ids).
Proof.
  revert w; induction ids as [|i ids IH]; intros w; simpl; [reflexivity|].
  now rewrite complete_with_clock, IH.
Qed.

Lemma advance_eq (t : nat) (w : World) :
  advance t w =
  with_clock (Nat.max (clock w) t)
             (foldl (fun w i => complete i w) w (schedule t w)).
Proof. unfold advance, with_clock. now rewrite completes_clock. Qed.

Lemma settle_by_running (t : nat) (th : Thread) :
  is_running (settle_by t th) = is_running th && negb (finish_time th <=? t).
Proof.
  unfold settle_by. destruct (is_running th) eqn:R; simpl; [| exact R].
  destruct (finish_time th <=? t); [apply settled_not_running | exact R].
Qed.

Lemma finish_time_settle_by (t : nat) (th : Thread) :
  finish_time (settle_by t th) = finish_time th.
Proof. apply evolves_finish, evolves_settle_by. Qed.

Lemma finish_of_advance (t : nat) (w : World) (i : nat) :
  finish_of (advance t w) i = finish_of w i.
Proof.
  unfold finish_of. rewrite advance_threads, list_lookup_fmap.
  destruct (threads w !! i); simpl; [apply finish_time_settle_by | reflexivity].
Qed.

Lemma is_due_advance (t1 t2 : nat) (w : World) (i : nat) :
  is_due t2 (advance t1 w) i = is_due t2 w i && negb (is_due t1 w i).
Proof.
  unfold is_due. rewrite advance_threads, list_lookup_fmap.
  destruct (threads w !! i) as [th|]; simpl; [| reflexivity].
  rewrite settle_by_running, finish_time_settle_by.
  destruct (is_running th), (finish_time th <=? t1), (finish_time th <=? t2);
    reflexivity.
Qed.

Lemma is_due_mono (t1 t2 : nat) (w : World) (i : nat) :
  t1 <= t2 ->
  is_due t2 w i = is_due t1 w i || (is_due t2 w i && negb (is_due t1 w i)).
Proof.
  intros Hle. unfold is_due. destruct (threads w !! i) as [th|]; [| reflexivity].
  destruct (is_running th); simpl; [| reflexivity].
  destruct (Nat.leb_spec (finish_time th) t1), (Nat.leb_spec (finish_time th) t2);
    simpl; try reflexivity; lia.
Qed.

(** The threads due by a later instant are those due by an earlier one,
    followed by those that become due in between. *)
Lemma schedule_advance (t1 t2 : nat) (w : World) :
  t1 <= t2 ->
  schedule t2 w = schedule t1 w ++ schedule t2 (advance t1 w).
Proof.
  intros Hle. unfold schedule, due.
  rewrite advance_threads, length_fmap.
  rewrite (filter_ext (is_due t2 (advance t1 w))
             (fun i => is_due t2 w i && negb (is_due t1 w i)))
    by (intros i; apply is_due_advance).
  rewrite (filter_ext (is_due t2 w)
             (fun i => is_due t1 w i || (is_due t2 w i && negb (is_due t1 w i))))
    by (intros i; now apply is_due_mono).
  rewrite (sort_by_ext (finish_of (advance t1 w)) (finish_of w))
    by (apply Forall_forall; intros; apply finish_of_advance).
  apply sort_by_split.
  intros x y _ _ Hx Hy. apply andb_true_iff in Hy as [Hy2 Hy1].
  apply negb_true_iff in Hy1. unfold is_due, finish_of in *.
  destruct (threads w !! x) as [thx|]; [| discriminate].
  destruct (threads w !! y) as [thy|]; [| discriminate]. simpl.
  apply andb_true_iff in Hx as [_ Hx]. apply andb_true_iff in Hy2 as [Ry _].
  rewrite Ry in Hy1. simpl in Hy1.
  apply Nat.leb_le in Hx. apply Nat.leb_gt in Hy1. lia.
Qed.

(** Letting time pass in two steps is letting it pass in one. *)
Lemma advance_advance (t1 t2 : nat) (w : World) :
  t1 <= t2 -> advance t2 (advance t1 w) = advance t2 w.
Proof.
  intros Hle. rewrite (advance_eq t2 w), (schedule_advance t1 t2 w Hle), foldl_app.
  rewrite (advance_eq t2 (advance t1 w)).
  rewrite (advance_eq t1 w) at 2.
  rewrite completes_with_clock. rewrite advance_clock.
  unfold with_clock; cbn [heap threads]. f_equal. lia.
Qed.


Lemma join_advance (tid t : nat) (w : World) (th : Thread) :
  threads w !! tid = Some th -> is_running th = true ->
  (Thread_join tid (advance t w)).2 = advance (Nat.max t (finish_time th)) w.
Proof.
  intros Hth Hr. unfold Thread_join.
  rewrite advance_threads, list_lookup_fmap, Hth. cbn [fmap option_fmap option_map].
  rewrite settle_by_running, finish_time_settle_by, Hr. cbn [andb].
  destruct (Nat.leb_spec (finish_time th) t) as [Hle|Hgt]; cbn [negb snd].
  - now rewrite Nat.max_l by exact Hle.
  - rewrite Nat.max_r by lia. apply advance_advance. lia.
Qed.

Lemma join_all_advance (tids : list nat) (t : nat) (w : World) :
  (forall tid, tid ∈ tids ->
     exists th, threads w !! tid = Some th /\ is_running th = true) ->
  join_all tids (advance t w) =
  advance (Nat.max t (max_list (finish_of w <$> tids))) w.
Proof.
  revert t; induction tids as [|tid tids IH]; intros t Hpre.
  - cbn. now rewrite Nat.max_0_r.
  - destruct (Hpre tid (list_elem_of_here _ _)) as (th & Hth & Hr).
    change (join_all (tid :: tids) (advance t w))
      with (join_all tids (Thread_join tid (advance t w)).2).
    rewrite (join_advance tid t w th Hth Hr).
    rewrite IH by (intros j Hj; apply Hpre; now apply list_elem_of_further).
    f_equal. rewrite fmap_cons.
    change (max_list (finish_of w tid :: (finish_of w <$> tids)))
      with (Nat.max (finish_of w tid) (max_list (finish_of w <$> tids))).
    unfold finish_of at 2. rewrite Hth. cbn [from_option]. lia.
Qed.

Lemma finishes_launched (w : World) (a : string) :
  finish_of (launch w a) <$> seq (length (threads w)) (length (units w a))
  = (fun d => clock w + d) <$> delays w a.
Proof.
  apply list_eq; intros k. unfold delays. rewrite !list_lookup_fmap.
  destruct (decide (k < length (units w a))) as [Hk|Hk].
  - rewrite lookup_seq_lt by exact Hk.
    destruct (lookup_lt_is_Some_2 (units w a) k Hk) as [u Hu]. rewrite Hu.
    change (Some (finish_of (launch w a) (length (threads w) + k)) =
            Some (clock w + latency (upstream u.1 u.2))).
    unfold finish_of. now rewrite (launched_lookup w a k u Hu).
  - rewrite lookup_seq_ge by lia.
    now rewrite (proj2 (lookup_ge_None (units w a) k)) by lia.
Qed.

(** The loop of joins leaves the world as one wait until the slowest
    unit of the batch has ended would. *)
Lemma batch_end_advance (w : World) (a : string) :
  batch_end w a = advance (clock w + max_list (delays w a)) (launch w a).
Proof.
  unfold batch_end.
  destruct (length (units w a)) as [|N] eqn:EN.
  { rewrite length_units, length_split in EN. discriminate. }
  assert (Hrun : forall tid, tid ∈ seq (length (threads w)) (S N) ->
            exists th, threads (launch w a) !! tid = Some th /\
                       is_running th = true).
  { intros tid Hin. apply elem_of_seq in Hin.
    destruct (lookup_lt_is_Some_2 (units w a) (tid - length (threads w)))
      as [u Hu]; [lia|].
    pose proof (launched_lookup w a _ u Hu) as Hth.
    replace (length (threads w) + (tid - length (threads w))) with tid in Hth by lia.
    eexists; split; [exact Hth | reflexivity]. }
  pose proof (finishes_launched w a) as Hfin. rewrite EN in Hfin.
  destruct (Hrun (length (threads w))) as (th0 & Hth0 & Hr0);
    [apply elem_of_seq; lia|].
  cbn [seq] in *.
  change (join_all (length (threads w) :: seq (S (length (threads w))) N)
                   (launch w a))
    with (join_all (seq (S (length (threads w))) N)
                   (Thread_join (length (threads w)) (launch w a)).2).
  unfold Thread_join at 1. rewrite Hth0, Hr0. cbn [snd].
  rewrite join_all_advance
    by (intros j Hj; apply Hrun; now apply list_elem_of_further).
  f_equal.
  rewrite fmap_cons in Hfin.
  destruct (delays w a) as [|d ds] eqn:Ed; [discriminate|].
  rewrite fmap_cons in Hfin. injection Hfin as Hf0 Hfs.
  unfold finish_of in Hf0. rewrite Hth0 in Hf0. cbn [from_option] in Hf0.
  rewrite Hf0, Hfs.
  change (max_list (d :: ds)) with (Nat.max d (max_list ds)).
  pose proof (max_list_shift (clock w) ds). lia.
Qed.


Lemma complete_appends (r : Ref) (i : nat) (w : World) :
  deref r (heap (complete i w)) =
  deref r (heap w) ++ option_list (appends r w i).
Proof.
  rewrite complete_eq. unfold appends.
  destruct (threads w !! i) as [th|]; [| now rewrite app_nil_r].
  destruct (is_running th); cbn [andb]; [| now rewrite app_nil_r].
  cbn [heap]. rewrite deref_grow.
  destruct (decide (th_results th = r)) as [E|E].
  - now rewrite bool_decide_eq_true_2 by exact E.
  - now rewrite bool_decide_eq_false_2 by exact E.
Qed.

Lemma appends_complete_ne (r : Ref) (i j : nat) (w : World) :
  i <> j -> appends r (complete i w) j = appends r w j.
Proof.
  intros Hne. unfold appends.
  now rewrite complete_threads, list_lookup_alter_ne by exact Hne.
Qed.

(** What a round of completions appends to a list object, thread by
    thread. *)
Lemma omap_ext_in {A B} (f g : A -> option B) (l : list A) :
  (forall x, x ∈ l -> f x = g x) -> omap f l = omap g l.
Proof.
  induction l as [|x l IH]; intros Hfg; [reflexivity|].
  assert (IH' := IH (fun y Hy => Hfg y (list_elem_of_further _ _ _ Hy))).
  simpl. rewrite (Hfg x (list_elem_of_here _ _)).
  destruct (g x); [f_equal|]; exact IH'.
Qed.

Lemma completes_heap (r : Ref) (ids : list nat) (w : World) :
  NoDup ids ->
  deref r (heap (foldl (fun w i => complete i w) w ids)) =
  deref r (heap w) ++ omap (appends r w) ids.
Proof.
  intros Hnd. revert w; induction Hnd as [|i ids Hi _ IH]; intros w.
  - cbn. now rewrite app_nil_r.
  - cbn [foldl]. rewrite IH, complete_appends, <- app_assoc. f_equal.
    rewrite (omap_ext_in (appends r (complete i w)) (appends r w)).
    + simpl. now destruct (appends r w i).
    + intros j Hj. apply appends_complete_ne. intros ->. contradiction.
Qed.

Lemma filter_none {A} (f : A -> bool) (l : list A) :
  (forall x, x ∈ l -> f x = false) -> List.filter f l = [].
Proof.
  induction l as [|x l IH]; intros Hf; [reflexivity|]. simpl.
  rewrite (Hf x (list_elem_of_here _ _)).
  apply IH. intros y Hy. apply Hf. now apply list_elem_of_further.
Qed.

Lemma filter_all {A} (f : A -> bool) (l : list A) :
  (forall x, x ∈ l -> f x = true) -> List.filter f l = l.
Proof.
  induction l as [|x l IH]; intros Hf; [reflexivity|]. simpl.
  rewrite (Hf x (list_elem_of_here _ _)). f_equal.
  apply IH. intros y Hy. apply Hf. now apply list_elem_of_further.
Qed.

Lemma launched_unit (w : World) (a : string) (i : nat) :
  i ∈ seq (length (threads w)) (length (units w a)) ->
  units w a !! (i - length (threads w)) = Some (unit_of (launch w a) i) /\
  threads (launch w a) !! i =
    Some (mkThread i (unit_of (launch w a) i).2 process_req_default
                   (clock w) Running).
Proof.
  intros Hin. apply elem_of_seq in Hin.
  destruct (lookup_lt_is_Some_2 (units w a) (i - length (threads w)))
    as [u Hu]; [lia|].
  pose proof (launched_lookup w a _ u Hu) as Hth.
  replace (length (threads w) + (i - length (threads w))) with i in Hth by lia.
  assert (Hu1 : u.1 = i).
  { unfold units in Hu. rewrite list_lookup_imap in Hu.
    destruct (delay_urls a !! (i - length (threads w))); [| discriminate].
    injection Hu as <-. cbn. lia. }
  unfold unit_of. rewrite Hth. cbn [from_option th_url].
  rewrite Hu, <- Hu1. split; [now destruct u | reflexivity].
Qed.

(** With no other unit in flight, the threads due when the slowest unit
    of a batch ends are the threads of the batch. *)
Lemma due_launched (w : World) (a : string) :
  quiescent w ->
  due (clock w + max_list (delays w a)) (launch w a)
  = seq (length (threads w)) (length (units w a)).
Proof.
  intros Hq. unfold due.
  assert (Hlen : length (threads (launch w a))
                 = length (threads w) + length (units w a)).
  { unfold launch, launched; cbn [threads]. now rewrite length_app, length_fmap. }
  rewrite Hlen, seq_app, List.filter_app. cbn [Nat.add].
  rewrite filter_none, filter_all; [reflexivity | |].
  - intros i Hin. destruct (launched_unit w a i Hin) as [Hu Hth].
    unfold is_due. rewrite Hth. cbn.
    apply Nat.leb_le, Nat.add_le_mono_l, max_list_elem_of_le.
    apply list_elem_of_lookup. exists (i - length (threads w)).
    unfold delays. now rewrite list_lookup_fmap, Hu.
  - intros i Hin. apply elem_of_seq in Hin. unfold is_due.
    rewrite launched_old by lia.
    destruct (threads w !! i) as [th|] eqn:E; [| reflexivity].
    now rewrite (Forall_lookup_1 _ _ _ _ Hq E).
Qed.

Lemma units_launched (w : World) (a : string) :
  unit_of (launch w a) <$> seq (length (threads w)) (length (units w a))
  = units w a.
Proof.
  apply list_eq; intros k. rewrite list_lookup_fmap.
  destruct (decide (k < length (units w a))) as [Hk|Hk].
  - rewrite lookup_seq_lt by exact Hk. cbn.
    destruct (launched_unit w a (length (threads w) + k)) as [Hu _];
      [apply elem_of_seq; lia|].
    replace (length (threads w) + k - length (threads w)) with k in Hu by lia.
    now rewrite Hu.
  - rewrite lookup_seq_ge by lia.
    now rewrite (proj2 (lookup_ge_None (units w a) k)) by lia.
Qed.

Lemma omap_through {A B C} (f : A -> option C) (g : B -> option C)
    (h : A -> B) (l : list A) :
  Forall (fun x => f x = g (h x)) l -> omap f l = omap g (h <$> l).
Proof.
  induction 1 as [|x l Hx _ IH]; [reflexivity|]. simpl.
  rewrite Hx. destruct (g (h x)); [f_equal|]; exact IH.
Qed.

Lemma StronglySorted_fmap_in {A B} (f : A -> B) (R1 : relation A)
    (R2 : relation B) (l : list A) :
  (forall x y, x ∈ l -> y ∈ l -> R1 x y -> R2 (f x) (f y)) ->
  StronglySorted R1 l -> StronglySorted R2 (f <$> l).
Proof.
  intros Hf Hs. induction Hs as [|x l Hs IH Hx]; [constructor|].
  rewrite fmap_cons. constructor.
  - apply IH. intros a b Ha Hb. apply Hf; now apply list_elem_of_further.
  - apply Forall_fmap, Forall_forall. intros y Hy.
    apply Hf; [apply list_elem_of_here | now apply list_elem_of_further |].
    exact (proj1 (Forall_forall _ _) Hx y Hy).
Qed.

(** PROPERTY X7.  With no other unit in flight, a batch request appends the payloads
    of its Targets to the list of [process_req] in the order in which
    the units end: the entries appended are those of the Targets that
    succeeded, taken in an order of the Targets in which no Target comes
    before a faster one. *)
Theorem do_GET_appends_in_order (p a : string) (w : World) :
  parse_path p = Ok (mkRequestPath "/secs/" (ArgStr a)) ->
  quiescent w ->
  exists us,
    us ≡ₚ units w a /\
    StronglySorted no_slower us /\
    deref process_req_default (heap (do_GET p w).2) =
    deref process_req_default (heap w)
    ++ omap (fun u => value_of (outcome u.1 u.2)) us.
Proof.
  intros Hp Hq. rewrite (do_GET_secs p a w Hp). cbn [snd].
  rewrite batch_end_advance.
  set (T := clock w + max_list (delays w a)).
  assert (Hsched : schedule T (launch w a) ≡ₚ
                   seq (length (threads w)) (length (units w a))).
  { unfold T. now rewrite schedule_perm, due_launched. }
  exists (unit_of (launch w a) <$> schedule T (launch w a)).
  split; [| split].
  - now rewrite Hsched, units_launched.
  - apply (StronglySorted_fmap_in _ (fun i j => finish_of (launch w a) i
                                               <= finish_of (launch w a) j)).
    + intros x y Hx Hy. rewrite Hsched in Hx, Hy.
      destruct (launched_unit w a x Hx) as [_ Hthx].
      destruct (launched_unit w a y Hy) as [_ Hthy].
      unfold finish_of, no_slower. rewrite Hthx, Hthy. cbn. lia.
    + apply sort_by_sorted.
  - unfold advance; cbn [heap].
    rewrite completes_heap by (rewrite Hsched; apply NoDup_seq).
    cbn [launch heap]. f_equal. apply omap_through, Forall_forall.
    intros i Hi. rewrite Hsched in Hi.
    destruct (launched_unit w a i Hi) as [_ Hth].
    unfold appends. rewrite Hth. cbn.
    now rewrite bool_decide_eq_true_2 by reflexivity.
Qed.


(** PROPERTY X8.  The handler waits for its own threads only: a unit of another
    request that is in flight when the batch starts and ends later than
    the slowest unit of the batch is still running, untouched, when the
    handler returns. *)
Theorem do_GET_waits_for_own (p a : string) (w : World) (i : nat) (th : Thread) :
  parse_path p = Ok (mkRequestPath "/secs/" (ArgStr a)) ->
  threads w !! i = Some th ->
  is_running th = true ->
  clock w + max_list (delays w a) < finish_time th ->
  threads (do_GET p w).2 !! i = Some th.
Proof.
  intros Hp Hth Hr Hlate. rewrite (do_GET_secs p a w Hp). cbn [snd].
  rewrite batch_end_advance, advance_threads, list_lookup_fmap.
  rewrite launched_old by (eapply lookup_lt_Some; exact Hth).
  rewrite Hth. cbn. unfold settle_by.
  now rewrite Hr, (proj2 (Nat.leb_gt _ _) Hlate).
Qed.

End MoreThreaded.

(** ** Further properties of the asyncio server *)

Section MoreAsync.

Import Async.
Context `{Network}.

Local Open Scope nat_scope.
Local Open Scope list_scope.

(** PROPERTY X9.  When [main] raises, it raises the exception of the unit of the batch
    that fails first, at the instant that unit fails: it does not wait
    for the units that take longer. *)
Theorem main_raises_first (urls : list string) (w w' : Loop) (e : Exn) :
  main urls w = (Raise e, w') ->
  exists k url,
    urls !! k = Some url /\
    answer (upstream (length (tasks w) + k) url) = Raise e /\
    now w' = now w + latency (upstream (length (tasks w) + k) url) /\
    forall k' url' e',
      urls !! k' = Some url' ->
      answer (upstream (length (tasks w) + k') url') = Raise e' ->
      latency (upstream (length (tasks w) + k) url)
      <= latency (upstream (length (tasks w) + k') url').
Proof.
  intros Hm. destruct (main_raise_inv urls w w' e Hm) as (d & Hf & ->).
  apply first_failure_Some in Hf as [Hin Hmin].
  apply list_elem_of_lookup in Hin as [k Hk].
  rewrite get_runs_lookup in Hk.
  destruct (urls !! k) as [url|] eqn:Eu; [| discriminate].
  cbn [fmap option_fmap option_map] in Hk. apply (inj Some) in Hk.
  apply get_run in Hk as [Hd He].
  exists k, url. split; [exact Eu|]. split; [exact He|]. split.
  - cbn. lia.
  - intros k' url' e' Hk' He'. rewrite Hd.
    apply (Hmin _ e'), list_elem_of_lookup. exists k'.
    rewrite get_runs_lookup, Hk'. cbn. unfold get. now rewrite He'.
Qed.

(** PROPERTY X10.  When [main] raises, [asyncio.run] hands the exception on and leaves
    every unit of the batch settled: a unit that ended strictly before
    the instant of the failure is done, with its answer; a unit that
    needs strictly longer is cancelled; and no unit, whenever it ends, is
    left pending.  Nothing is said on whether a unit that ends at the
    very instant of the failure is found ended or is cancelled. *)
Theorem asyncio_run_cancels (urls : list string) (w w' : Loop) (e : Exn) :
  main urls w = (Raise e, w') ->
  (asyncio_run (main urls) w).1 = Raise e /\
  forall j url,
    urls !! j = Some url ->
    (latency (upstream (length (tasks w) + j) url) < now w' - now w ->
     tasks (asyncio_run (main urls) w).2 !! (length (tasks w) + j) =
     Some (mkTask (now w) (latency (upstream (length (tasks w) + j) url))
                  None Done)) /\
    (now w' - now w < latency (upstream (length (tasks w) + j) url) ->
     tasks (asyncio_run (main urls) w).2 !! (length (tasks w) + j) =
     Some (mkTask (now w) (latency (upstream (length (tasks w) + j) url))
                  (error_of (answer (upstream (length (tasks w) + j) url)))
                  Cancelled)) /\
    exists t,
      tasks (asyncio_run (main urls) w).2 !! (length (tasks w) + j) = Some t /\
      is_pending t = false.
Proof.
  intros Hm. unfold asyncio_run. rewrite Hm. cbn [fst snd]. split; [reflexivity|].
  destruct (main_raise_unit urls w w' e Hm) as (d & -> & Hnow & _ & Hmin).
  intros j url Hj. unfold cancel_pending; cbn [tasks].
  rewrite list_lookup_fmap, (child_after_failure urls w d j url Hj), Hnow.
  replace (now w + d - now w) with d by lia.
  cbn [fmap option_fmap option_map].
  split; [| split].
  - intros Hlt. rewrite (proj2 (Nat.leb_le _ _)) by lia.
    destruct (answer (upstream (length (tasks w) + j) url)) as [r|e'] eqn:Ea.
    + reflexivity.
    + specialize (Hmin j url e' Hj Ea). lia.
  - intros Hlt. rewrite (proj2 (Nat.leb_gt _ _)) by lia. reflexivity.
  - eexists. split; [reflexivity|].
    destruct (_ <=? d); [| reflexivity].
    now destruct (answer (upstream (length (tasks w) + j) url)).
Qed.

(** PROPERTY X11.  [get_delays] raises and reports no delay when the transport fails
    for one of its two URLs: the exception of the unit that fails first
    leaves the view. *)
Theorem get_delays_raises (w : Loop) (k : nat) (url : string) (e : Exn) :
  DELAY_URLS !! k = Some url ->
  answer (upstream (length (tasks w) + k) url) = Raise e ->
  exists e' w' k' url',
    get_delays w = (Raise e', w') /\
    DELAY_URLS !! k' = Some url' /\
    answer (upstream (length (tasks w) + k') url') = Raise e'.
Proof.
  intros Hk He.
  destruct (main_raises DELAY_URLS w k url e Hk He)
    as (e' & w' & k' & url' & Hm & Hk' & He').
  exists e', (cancel_pending w'), k', url'.
  split; [| split; [exact Hk' | exact He']].
  unfold get_delays, abind, time_time, asyncio_run. now rewrite Hm.
Qed.

End MoreAsync.

(** ** Worked examples for the further properties *)

Section MoreWorked.

Import Threaded.

Local Open Scope nat_scope.
Local Open Scope list_scope.

Local Existing Instance Demo.httpbin.

Lemma parse_path_build_witness :
  ~ Str.occurs "/" "2,3" /\
  parse_path ("/api" ++ "/secs/" ++ "2,3")
  = Ok (mkRequestPath "/secs/" (ArgStr "2,3")).
Proof.
  assert (Hfree : ~ Str.occurs "/" "2,3") by (apply contains_false; reflexivity).
  split; [exact Hfree | exact (parse_path_build "/api" "2,3" Hfree)].
Defined.

Lemma process_req_plain_witness :
  ~ Str.occurs "/secs/" "/favicon.ico" /\
  exists req,
    parse_path "/favicon.ico" = Ok req /\
    process_req req None boot = (Raise AttributeError, boot) /\
    do_GET "/favicon.ico" boot = (Ok 0, boot).
Proof.
  assert (Hno : ~ Str.occurs "/secs/" "/favicon.ico")
    by (apply contains_false; reflexivity).
  split; [exact Hno | exact (process_req_plain "/favicon.ico" None boot Hno)].
Defined.

Lemma do_GET_thread_count_witness :
  parse_path "/secs/3,1,2" = Ok (mkRequestPath "/secs/" (ArgStr "3,1,2")) /\
  length (threads (do_GET "/secs/3,1,2" boot).2)
  = length (threads boot) + S (Str.count comma "3,1,2").
Proof.
  assert (Hp : parse_path "/secs/3,1,2"
               = Ok (mkRequestPath "/secs/" (ArgStr "3,1,2"))) by reflexivity.
  split; [exact Hp | exact (do_GET_thread_count "/secs/3,1,2" "3,1,2" boot Hp)].
Defined.

Lemma do_GET_one_list_witness :
  quiescent boot /\
  forall r, r <> process_req_default ->
            deref r (heap (do_GET "/secs/3,1,2" boot).2) = deref r (heap boot).
Proof.
  assert (Hq : quiescent boot) by constructor.
  split; [exact Hq | exact (proj1 (do_GET_one_list "/secs/3,1,2" boot Hq))].
Defined.

Lemma do_GET_quiescent_witness :
  quiescent boot /\ quiescent (do_GET "/secs/3,x,2" boot).2.
Proof.
  assert (Hq : quiescent boot) by constructor.
  split; [exact Hq | exact (proj1 (do_GET_quiescent "/secs/3,x,2" boot Hq))].
Defined.

Lemma do_GET_appends_in_order_witness :
  parse_path "/secs/3,1,2" = Ok (mkRequestPath "/secs/" (ArgStr "3,1,2")) /\
  quiescent boot /\
  exists us,
    us ≡ₚ units boot "3,1,2" /\
    StronglySorted no_slower us /\
    deref process_req_default (heap (do_GET "/secs/3,1,2" boot).2) =
    deref process_req_default (heap boot)
    ++ omap (fun u => value_of (outcome u.1 u.2)) us.
Proof.
  assert (Hp : parse_path "/secs/3,1,2"
               = Ok (mkRequestPath "/secs/" (ArgStr "3,1,2"))) by reflexivity.
  assert (Hq : quiescent boot) by constructor.
  split; [exact Hp|]. split; [exact Hq|].
  exact (do_GET_appends_in_order "/secs/3,1,2" "3,1,2" boot Hp Hq).
Defined.

(** A request for a delay of one tick arrives while the thread of a
    request for five ticks is in flight: that thread is still running
    when the handler of the second request returns. *)
Lemma do_GET_waits_for_own_witness :
  threads (launch boot "5") !! 0
  = Some (mkThread 0 "http://httpbin.org/delay/5" process_req_default 0 Running) /\
  clock (launch boot "5") + max_list (delays (launch boot "5") "1") < 5 /\
  threads (do_GET "/secs/1" (launch boot "5")).2 !! 0
  = Some (mkThread 0 "http://httpbin.org/delay/5" process_req_default 0 Running).
Proof.
  assert (Hp : parse_path "/secs/1" = Ok (mkRequestPath "/secs/" (ArgStr "1")))
    by reflexivity.
  assert (Hth : threads (launch boot "5") !! 0
                = Some (mkThread 0 "http://httpbin.org/delay/5"
                                 process_req_default 0 Running))
    by reflexivity.
  assert (Hlate : clock (launch boot "5")
                  + max_list (delays (launch boot "5") "1") < 5)
    by (repeat constructor).
  split; [exact Hth|]. split; [exact Hlate|].
  exact (do_GET_waits_for_own "/secs/1" "1" (launch boot "5") 0 _ Hp Hth
                              eq_refl Hlate).
Defined.

Lemma main_raises_first_witness :
  Async.main ["http://httpbin.org/delay/3"; "http://httpbin.org/delay/x"]%string
             Async.idle
  = (Raise ConnectionError,
     Async.mkLoop 1 [Async.mkTask 0 3 None Async.Pending;
                     Async.mkTask 0 1 (Some ConnectionError)
                                  (Async.Failed ConnectionError)] 1) /\
  exists k url,
    ["http://httpbin.org/delay/3"; "http://httpbin.org/delay/x"]%string !! k
    = Some url /\
    answer (upstream (length (Async.tasks Async.idle) + k) url)
    = Raise ConnectionError.
Proof.
  assert (Hm : Async.main
                 ["http://httpbin.org/delay/3"; "http://httpbin.org/delay/x"]%string
                 Async.idle
               = (Raise ConnectionError,
                  Async.mkLoop 1 [Async.mkTask 0 3 None Async.Pending;
                                  Async.mkTask 0 1 (Some ConnectionError)
                                               (Async.Failed ConnectionError)] 1))
    by reflexivity.
  split; [exact Hm|].
  destruct (main_raises_first _ _ _ _ Hm) as (k & url & Hk & He & _).
  exists k, url. split; [exact Hk | exact He].
Defined.

Lemma asyncio_run_cancels_witness :
  Async.main ["http://httpbin.org/delay/3"; "http://httpbin.org/delay/x"]%string
             Async.idle
  = (Raise ConnectionError,
     Async.mkLoop 1 [Async.mkTask 0 3 None Async.Pending;
                     Async.mkTask 0 1 (Some ConnectionError)
                                  (Async.Failed ConnectionError)] 1) /\
  (Async.asyncio_run
     (Async.main ["http://httpbin.org/delay/3"; "http://httpbin.org/delay/x"]%string)
     Async.idle).1 = Raise ConnectionError.
Proof.
  assert (Hm : Async.main
                 ["http://httpbin.org/delay/3"; "http://httpbin.org/delay/x"]%string
                 Async.idle
               = (Raise ConnectionError,
                  Async.mkLoop 1 [Async.mkTask 0 3 None Async.Pending;
                                  Async.mkTask 0 1 (Some ConnectionError)
                                               (Async.Failed ConnectionError)] 1))
    by reflexivity.
  split; [exact Hm | exact (proj1 (asyncio_run_cancels _ _ _ _ Hm))].
Defined.

Example asyncio_run_cancels_example :
  Async.t_state <$>
    Async.tasks
      (Async.asyncio_run
         (Async.main ["http://httpbin.org/delay/3"; "http://httpbin.org/delay/x"]%string)
         Async.idle).2
  = [Async.Cancelled; Async.Failed ConnectionError].
Proof. reflexivity. Qed.

Lemma get_delays_raises_witness :
  Async.DELAY_URLS !! 1 = Some "http://httpbin.org/delay/3"%string /\
  answer (@upstream Demo.outage
                    (length (Async.tasks Async.idle) + 1)
                    "http://httpbin.org/delay/3")
  = Raise ConnectionError /\
  exists e' w', Async.get_delays (H := Demo.outage) Async.idle = (Raise e', w').
Proof.
  assert (Hk : Async.DELAY_URLS !! 1 = Some "http://httpbin.org/delay/3"%string)
    by reflexivity.
  assert (He : answer (@upstream Demo.outage
                                 (length (Async.tasks Async.idle) + 1)
                                 "http://httpbin.org/delay/3")
               = Raise ConnectionError) by reflexivity.
  split; [exact Hk|]. split; [exact He|].
  destruct (get_delays_raises (H := Demo.outage) Async.idle 1 _ _ Hk He)
    as (e' & w' & _ & _ & Hg & _).
  exists e', w'. exact Hg.
Defined.

End MoreWorked.
